(** * Age-performance fronts of the road-town race analysis

    A shallow embedding of the computational core of [server.py] and
    [build.py]: the age reducer [get_fastest_at_each_age], the Pareto engine
    [compute_pareto_front], the two metrics [get_pareto_time_at_age] and
    [count_blocking_runners], and the display-name pass of the all-time view.

    Modelling choices.
    - A result row is a Python dict with a fixed set of keys; it is the record
      [runner] below.  Ages are Python [int]s, hence [Z].
    - [time_seconds] is a Python float obtained from a decimal string.  It is
      modelled by an exact rational ([Q]); comparisons are the numeric ones
      ([Qlt], [Qeq]) and rounding is not modelled.
    - [float('inf')] is the extra point [Inf] of the type [bound].
    - Python exceptions are the [Raise] results of the monad [py].
    - The dict [age_groups] is an insertion-ordered association list, because
      [list(age_groups.values())] exposes the insertion order; the dict
      [name_year_counts] is only ever looked up and is a [gmap]. *)

From Stdlib Require Import QArith Lqa.
From stdpp Require Import base option list sorting gmap strings.

Local Open Scope Z_scope.

(** * The program

    ** Python results: values and exceptions *)

Inductive exn : Set := ValueError | KeyError | ZeroDivisionError.

Inductive py (A : Type) : Type :=
  | Ret (a : A)
  | Raise (e : exn).
Arguments Ret {A} a.
Arguments Raise {A} e.

#[global] Instance py_ret : MRet py := @Ret.
#[global] Instance py_bind : MBind py := λ A B f m,
  match m with
  | Ret a => f a
  | Raise e => Raise e
  end.

(** ** Result rows *)

Inductive sex_t : Set := M | F.

Record runner : Type := Runner {
  name : string;
  age : Z;
  sex : sex_t;
  division : string;
  div_place : string;
  time_seconds : Q;
  time_display : string;
  year : string
}.

(** [best_time_so_far]: a float that starts at [float('inf')]. *)
Inductive bound : Type := Inf | Fin (t : Q).

Definition lt_bound (t : Q) (b : bound) : Prop :=
  match b with
  | Inf => True
  | Fin q => (t < q)%Q
  end.

#[global] Instance Qlt_dec : RelDecision Qlt := λ x y,
  match Qlt_le_dec x y with
  | left H => left H
  | right H => right (Qle_not_lt _ _ H)
  end.

#[global] Instance Qeq_dec' : RelDecision Qeq := Qeq_dec.

#[global] Instance lt_bound_dec t b : Decision (lt_bound t b).
Proof. destruct b; simpl; apply _. Defined.

(** ** Python built-ins used by the source *)

(** [not xs] for a list. *)
Definition py_not {A} (xs : list A) : bool :=
  match xs with
  | [] => true
  | _ :: _ => false
  end.

Section builtins.
Context {A K : Type} (lt : relation K) `{!RelDecision lt} (key : A → K).

(** [min(xs, key=key)] keeps the first element whose key is minimal: the
    running best is replaced only by a strictly smaller key. *)
Fixpoint min_from (best : A) (xs : list A) : A :=
  match xs with
  | [] => best
  | x :: xs' => min_from (if decide (lt (key x) (key best)) then x else best) xs'
  end.

Definition py_min (xs : list A) : py A :=
  match xs with
  | [] => Raise ValueError
  | x :: xs' => Ret (min_from x xs')
  end.

(** [max(xs, key=key)]: replaced only by a strictly larger key. *)
Fixpoint max_from (best : A) (xs : list A) : A :=
  match xs with
  | [] => best
  | x :: xs' => max_from (if decide (lt (key best) (key x)) then x else best) xs'
  end.

Definition py_max (xs : list A) : py A :=
  match xs with
  | [] => Raise ValueError
  | x :: xs' => Ret (max_from x xs')
  end.
End builtins.

(** [sorted(xs, key=lambda x: x['age'])]: the stable sort by age.  The stable
    sorted permutation of a list is unique, so the straight insertion sort that
    places an element before the first element of the sorted tail whose key is
    not smaller computes it. *)
Fixpoint insert_by_age (x : runner) (xs : list runner) : list runner :=
  match xs with
  | [] => [x]
  | y :: ys => if decide (age x ≤ age y) then x :: y :: ys else y :: insert_by_age x ys
  end.

Fixpoint sorted_by_age (xs : list runner) : list runner :=
  match xs with
  | [] => []
  | x :: xs' => insert_by_age x (sorted_by_age xs')
  end.

(** [x / y] with [y] an [int]. *)
Definition py_div (x : Q) (y : Z) : py Q :=
  if decide (y = 0) then Raise ZeroDivisionError else Ret (x / inject_Z y)%Q.

(** ** Age reducer *)

Module PyDict.
(** A Python dict keyed by [int]: association list in insertion order, keys
    pairwise distinct. *)
Definition t (V : Type) : Type := list (Z * V).

Fixpoint get {V} (k : Z) (d : t V) : option V :=
  match d with
  | [] => None
  | (k', v) :: d' => if decide (k = k') then Some v else get k d'
  end.

(** [d[k] = v]: overwrite in place when the key is present, else append. *)
Fixpoint set {V} (k : Z) (v : V) (d : t V) : t V :=
  match d with
  | [] => [(k, v)]
  | (k', v') :: d' => if decide (k = k') then (k, v) :: d' else (k', v') :: set k v d'
  end.

Definition values {V} (d : t V) : list V := d.*2.
Definition keys {V} (d : t V) : list Z := d.*1.
End PyDict.

(** One iteration of [for runner in runners] in [get_fastest_at_each_age]. *)
Definition age_groups_step (age_groups : PyDict.t runner) (r : runner) : PyDict.t runner :=
  match PyDict.get (age r) age_groups with
  | None => PyDict.set (age r) r age_groups
  | Some cur =>
      if decide (time_seconds r < time_seconds cur)%Q
      then PyDict.set (age r) r age_groups
      else age_groups
  end.

Definition get_fastest_at_each_age (runners : list runner) : list runner :=
  if py_not runners then []
  else PyDict.values (foldl age_groups_step [] runners).

(** ** Pareto engine *)

(** One iteration of either scan loop: the state is the list appended to and
    [best_time_so_far]. *)
Definition front_step (st : list runner * bound) (r : runner) : list runner * bound :=
  if decide (lt_bound (time_seconds r) st.2)
  then (st.1 ++ [r], Fin (time_seconds r))
  else st.

Definition front_loop (xs : list runner) : list runner :=
  (foldl front_step ([], Inf) xs).1.

Definition compute_pareto_front (runners : list runner) : py (list runner) :=
  if py_not runners then mret []
  else
    fastest ← py_min Qlt time_seconds runners;
    let peak_age := age fastest in
    let sorted_runners := sorted_by_age runners in
    let younger_than_peak := filter (λ r, age r < peak_age) sorted_runners in
    let at_or_older_than_peak := filter (λ r, age r >= peak_age) sorted_runners in
    let pareto := front_loop younger_than_peak in
    let older_pareto := front_loop (reverse at_or_older_than_peak) in
    mret (pareto ++ reverse older_pareto).

(** ** Metrics engine *)

(** [for p in pareto_front: if p['age'] == age: return p['time_seconds']]. *)
Fixpoint exact_match (a : Z) (pareto_front : list runner) : option Q :=
  match pareto_front with
  | [] => None
  | p :: ps => if decide (age p = a) then Some (time_seconds p) else exact_match a ps
  end.

Definition get_pareto_time_at_age (a : Z) (pareto_front : list runner) : py (option Q) :=
  if py_not pareto_front then mret None
  else
    match exact_match a pareto_front with
    | Some t => mret (Some t)
    | None =>
        let younger := filter (λ p, age p < a) pareto_front in
        let older := filter (λ p, age p > a) pareto_front in
        if py_not younger && py_not older then mret None
        else if py_not younger then
          p ← py_min Z.lt age pareto_front; mret (Some (time_seconds p))
        else if py_not older then
          p ← py_max Z.lt age pareto_front; mret (Some (time_seconds p))
        else
          closest_younger ← py_max Z.lt age younger;
          closest_older ← py_min Z.lt age older;
          let age_diff := age closest_older - age closest_younger in
          let time_diff := (time_seconds closest_older - time_seconds closest_younger)%Q in
          let age_offset := a - age closest_younger in
          q ← py_div (time_diff * inject_Z age_offset)%Q age_diff;
          mret (Some (time_seconds closest_younger + q)%Q)
    end.

(** [distance = result['time_seconds'] - pareto_time if pareto_time else None]:
    [None] and [0.0] are both falsy. *)
Definition distance_to_pareto (result : runner) (pareto_front : list runner) : py (option Q) :=
  pareto_time ← get_pareto_time_at_age (age result) pareto_front;
  mret (match pareto_time with
        | Some t => if decide (t == 0)%Q then None else Some (time_seconds result - t)%Q
        | None => None
        end).

Definition count_blocking_runners (r : runner) (all_runners_same_gender : list runner) : py nat :=
  fastest ← py_min Qlt time_seconds all_runners_same_gender;
  let peak_age := age fastest in
  if decide (age r < peak_age) then
    mret (foldl (λ blocking_count other,
                   if decide (age other ≤ age r ∧ (time_seconds other < time_seconds r)%Q)
                   then S blocking_count else blocking_count)
                O all_runners_same_gender)
  else if decide (age r > peak_age) then
    mret (foldl (λ blocking_count other,
                   if decide (age other >= age r ∧ (time_seconds other < time_seconds r)%Q)
                   then S blocking_count else blocking_count)
                O all_runners_same_gender)
  else if decide (time_seconds r == time_seconds fastest)%Q then mret O
  else
    mret (sum_list ((λ _, 1%nat) <$>
            filter (λ other, age other = age r ∧ (time_seconds other < time_seconds r)%Q)
                   all_runners_same_gender)).

(** ** All-time view: display names *)

(** A [for] loop whose body may raise. *)
Fixpoint py_for {S A : Type} (body : S → A → py S) (s : S) (xs : list A) : py S :=
  match xs with
  | [] => mret s
  | x :: xs' => s' ← body s x; py_for body s' xs'
  end.

(** [d[k]] raises [KeyError] on a missing key. *)
Definition py_getitem {V} (d : gmap string V) (k : string) : py V :=
  match d !! k with
  | Some v => Ret v
  | None => Raise KeyError
  end.

(** Body of the first loop: create the entry when missing, then append the
    year to the list stored under the name. *)
Definition name_year_counts_step (name_year_counts : gmap string (list string)) (result : runner)
    : py (gmap string (list string)) :=
  let counts :=
    if decide (is_Some (name_year_counts !! name result)) then name_year_counts
    else <[name result := []]> name_year_counts in
  years ← py_getitem counts (name result);
  mret (<[name result := years ++ [year result]]> counts).

(** [len(set(years))]. *)
Definition distinct_years (years : list string) : nat :=
  size (list_to_set years : gset string).

(** Body of the second loop: the value stored under ['display_name']. *)
Definition display_name (name_year_counts : gmap string (list string)) (result : runner)
    : py string :=
  years ← py_getitem name_year_counts (name result);
  if decide (1 < distinct_years years)%nat
  then mret (name result +:+ " (" +:+ year result +:+ ")")
  else mret (name result).

(** The two loops of [get_all_time_data] / [build_all_time_data]; each record
    is returned with its display name. *)
Definition add_display_names (all_results : list runner) : py (list (runner * string)) :=
  name_year_counts ← py_for name_year_counts_step ∅ all_results;
  mapM (λ result, d ← display_name name_year_counts result; mret (result, d)) all_results.

(** * Vocabulary of the statements

    ** Built-ins, sort and scans *)

(** [m] is the first element of [xs] with the smallest key: everything before
    it has a strictly larger key, nothing after it has a smaller one. *)
Definition first_min {A K} (lt : relation K) (key : A → K) (xs : list A) (m : A) : Prop :=
  ∃ l1 l2, xs = l1 ++ m :: l2 ∧
    Forall (λ x, lt (key m) (key x)) l1 ∧
    Forall (λ x, ¬ lt (key x) (key m)) l2.

Definition first_max {A K} (lt : relation K) (key : A → K) (xs : list A) (m : A) : Prop :=
  ∃ l1 l2, xs = l1 ++ m :: l2 ∧
    Forall (λ x, lt (key x) (key m)) l1 ∧
    Forall (λ x, ¬ lt (key m) (key x)) l2.

Definition age_le (x y : runner) : Prop := age x ≤ age y.
Definition age_lt (x y : runner) : Prop := age x < age y.

(** The records a scan appends, as a function of [best_time_so_far]. *)
Fixpoint scan (best : bound) (xs : list runner) : list runner :=
  match xs with
  | [] => []
  | r :: xs' =>
      if decide (lt_bound (time_seconds r) best)
      then r :: scan (Fin (time_seconds r)) xs'
      else scan best xs'
  end.

(** Along a scan the times strictly decrease. *)
Definition faster_later (x y : runner) : Prop := (time_seconds y < time_seconds x)%Q.

(** The two halves of the result of [compute_pareto_front], as functions of
    the peak age. *)
Definition younger_front (peak_age : Z) (rs : list runner) : list runner :=
  scan Inf (filter (λ r, age r < peak_age) (sorted_by_age rs)).

Definition older_front (peak_age : Z) (rs : list runner) : list runner :=
  reverse (scan Inf (reverse (filter (λ r, age r >= peak_age) (sorted_by_age rs)))).

(** Order of two front entries on the younger side, and on the older side. *)
Definition toward_peak (x y : runner) : Prop :=
  age x ≤ age y ∧ (time_seconds y < time_seconds x)%Q.
Definition away_from_peak (x y : runner) : Prop :=
  age x ≤ age y ∧ (time_seconds x < time_seconds y)%Q.

(** ** Sample rows *)

#[global] Instance Q_eq_dec : EqDecision Q.
Proof. solve_decision. Defined.
#[global] Instance sex_eq_dec : EqDecision sex_t.
Proof. solve_decision. Defined.
#[global] Instance runner_eq_dec : EqDecision runner.
Proof. solve_decision. Defined.

(** A male row with the given name, age, time in seconds and year. *)
Definition row (n : string) (a : Z) (t : Z) (y : string) : runner :=
  Runner n a M "" "" (inject_Z t) "" y.

(** A pool with a single fastest record, Eli. *)
Definition sample_pool : list runner :=
  [row "Cal" 20 1300 "2025"; row "Dee" 25 1250 "2025"; row "Eli" 30 1200 "2025";
   row "Fay" 40 1290 "2025"; row "Gus" 35 1310 "2025"].

(** The pool of the blocking-count example. *)
Definition blocking_pool : list runner :=
  [row "Cal" 20 1300 "2025"; row "Dee" 25 1250 "2025"; row "Eli" 30 1200 "2025"].

(** Ann is the peak; Bea, older, runs the same time. *)
Definition tied_older_pool : list runner :=
  [row "Ann" 20 100 "2025"; row "Bea" 30 100 "2025"].

(** Bea is the peak; Cy, younger, runs the same time, at the age of Ann. *)
Definition tied_younger_pool : list runner :=
  [row "Bea" 30 100 "2025"; row "Ann" 20 110 "2025"; row "Cy" 20 100 "2025"].

(** Bea is the peak; Cy, older, runs the same time; the ages are distinct. *)
Definition tied_peak_pool : list runner :=
  [row "Ann" 20 200 "2025"; row "Bea" 30 100 "2025"; row "Cy" 40 100 "2025"].

(** A women's pool with a single fastest record, Joy. *)
Definition sample_women : list runner :=
  [Runner "Ivy" 22 F "" "" (inject_Z 1500) "" "2025";
   Runner "Joy" 31 F "" "" (inject_Z 1400) "" "2025";
   Runner "Kim" 36 F "" "" (inject_Z 1520) "" "2025";
   Runner "Lou" 45 F "" "" (inject_Z 1480) "" "2025"].

(** Enumerate the members of a concrete list. *)
Ltac members H :=
  repeat (apply elem_of_cons in H as [->|H]); [..|by apply elem_of_nil in H].

(** ** The claims about the front *)

(** The statement "the first fastest record is on the front". *)
Definition peak_on_front (rs : list runner) : Prop :=
  ∃ peak fr, py_min Qlt time_seconds rs = Ret peak ∧
    compute_pareto_front rs = Ret fr ∧ peak ∈ fr.

(** The properties of C2, on a front [fr] split at index [p]. *)
Definition ages_nondecreasing (fr : list runner) : Prop :=
  ∀ i j x y, (i < j)%nat → fr !! i = Some x → fr !! j = Some y → age x ≤ age y.

Definition ages_increasing (fr : list runner) : Prop :=
  ∀ i j x y, (i < j)%nat → fr !! i = Some x → fr !! j = Some y → age x < age y.

(** Strictly decreasing over [0..p], strictly increasing over [p..end]. *)
Definition times_unimodal (fr : list runner) (p : nat) : Prop :=
  (∀ i j x y, (i < j ≤ p)%nat → fr !! i = Some x → fr !! j = Some y →
     (time_seconds y < time_seconds x)%Q) ∧
  (∀ i j x y, (p ≤ i < j)%nat → fr !! i = Some x → fr !! j = Some y →
     (time_seconds x < time_seconds y)%Q).

(** The same, except that the entries before [p] need only be no faster than
    the entry at [p]. *)
Definition times_weakly_unimodal (fr : list runner) (p : nat) : Prop :=
  (∀ i j x y, (i < j < p)%nat → fr !! i = Some x → fr !! j = Some y →
     (time_seconds y < time_seconds x)%Q) ∧
  (∀ i x y, (i < p)%nat → fr !! i = Some x → fr !! p = Some y →
     (time_seconds y <= time_seconds x)%Q) ∧
  (∀ i j x y, (p ≤ i < j)%nat → fr !! i = Some x → fr !! j = Some y →
     (time_seconds x < time_seconds y)%Q).

(** [p] indexes an entry with the smallest time of [rs]. *)
Definition fastest_at (rs fr : list runner) (p : nat) : Prop :=
  ∃ m, fr !! p = Some m ∧ ∀ z, z ∈ rs → (time_seconds m <= time_seconds z)%Q.

(** No record younger than the peak ties the peak's time. *)
Definition no_younger_tie (rs : list runner) : Prop :=
  ∀ peak z, py_min Qlt time_seconds rs = Ret peak →
    z ∈ rs → age z < age peak → ¬ (time_seconds z == time_seconds peak)%Q.

(** No record older than the peak ties the peak's time. *)
Definition no_older_tie (rs : list runner) : Prop :=
  ∀ peak z, py_min Qlt time_seconds rs = Ret peak →
    z ∈ rs → age peak < age z → ¬ (time_seconds z == time_seconds peak)%Q.

(** C2 as stated. *)
Definition front_strictly_ordered (rs : list runner) : Prop :=
  ∃ fr, compute_pareto_front rs = Ret fr ∧ ages_increasing fr ∧
    ∀ p, fastest_at fr fr p → times_unimodal fr p.

(** The two sides of the peak age are those of the partition made by the
    engine: strictly younger, and at or beyond the peak age. *)
Definition same_side (pa a1 a2 : Z) : Prop :=
  (a1 < pa ∧ a2 < pa) ∨ (pa ≤ a1 ∧ pa ≤ a2).

(** [e2] dominates [e1]: same side, at least as far from the peak, not slower. *)
Definition dominated_by (pa : Z) (e1 e2 : runner) : Prop :=
  same_side pa (age e1) (age e2) ∧
  Z.abs (age e1 - pa) ≤ Z.abs (age e2 - pa) ∧
  (time_seconds e2 <= time_seconds e1)%Q.

(** The same with [e2] strictly farther from the peak. *)
Definition strictly_dominated_by (pa : Z) (e1 e2 : runner) : Prop :=
  same_side pa (age e1) (age e2) ∧
  Z.abs (age e1 - pa) < Z.abs (age e2 - pa) ∧
  (time_seconds e2 <= time_seconds e1)%Q.

(** C3 as stated. *)
Definition front_non_dominated (rs : list runner) : Prop :=
  ∃ fr, compute_pareto_front rs = Ret fr ∧
    ∀ peak, py_min Qlt time_seconds rs = Ret peak →
    ∀ i j e1 e2, i ≠ j → fr !! i = Some e1 → fr !! j = Some e2 →
      ¬ dominated_by (age peak) e1 e2.

(** C8 as stated: a second run returns the same set of records. *)
Definition front_idempotent (rs : list runner) : Prop :=
  ∃ fr fr2, compute_pareto_front rs = Ret fr ∧ compute_pareto_front fr = Ret fr2 ∧
    ∀ x, x ∈ fr ↔ x ∈ fr2.

(** C4 as stated: every operation returns an empty or neutral result on
    empty input, without raising. *)
Definition empty_input_is_neutral : Prop :=
  get_fastest_at_each_age [] = [] ∧
  compute_pareto_front [] = Ret [] ∧
  (∀ a, get_pareto_time_at_age a [] = Ret None) ∧
  (∀ r, ∃ n, count_blocking_runners r [] = Ret n).

(** The value of [pareto_time_at] described case by case: no value on an
    empty front; the time of an entry of the queried age; the time of a
    youngest entry when the age is below the front; the time of an oldest
    entry when it is above; else the interpolation between a nearest younger
    and a nearest older entry. *)
Inductive pareto_time_at (a : Z) (fr : list runner) : option Q → Prop :=
  | time_at_empty :
      fr = [] → pareto_time_at a fr None
  | time_at_exact p :
      p ∈ fr → age p = a → pareto_time_at a fr (Some (time_seconds p))
  | time_at_youngest p :
      p ∈ fr → (∀ z, z ∈ fr → a < age z) → (∀ z, z ∈ fr → age p ≤ age z) →
      pareto_time_at a fr (Some (time_seconds p))
  | time_at_oldest p :
      p ∈ fr → (∀ z, z ∈ fr → age z < a) → (∀ z, z ∈ fr → age z ≤ age p) →
      pareto_time_at a fr (Some (time_seconds p))
  | time_at_between y o :
      y ∈ fr → o ∈ fr → (∀ z, z ∈ fr → age z ≠ a) →
      age y < a < age o →
      (∀ z, z ∈ fr → age z < a → age z ≤ age y) →
      (∀ z, z ∈ fr → a < age z → age o ≤ age z) →
      pareto_time_at a fr
        (Some (time_seconds y +
               (time_seconds o - time_seconds y) * inject_Z (a - age y)
               / inject_Z (age o - age y))%Q).

(** [v] is the record kept for its age among the records [seen] so far: the
    first of the fastest records of that age. *)
Definition fastest_of_age (seen : list runner) (v : runner) : Prop :=
  first_min Qlt time_seconds (filter (λ r, age r = age v) seen) v.

(** Invariant of the loop of [get_fastest_at_each_age]. *)
Record age_groups_inv (age_groups : PyDict.t runner) (seen : list runner) : Prop := {
  inv_keys_nodup : NoDup (PyDict.keys age_groups);
  inv_entries : ∀ k v, (k, v) ∈ age_groups → age v = k ∧ fastest_of_age seen v;
  inv_covered : ∀ r, r ∈ seen → age r ∈ PyDict.keys age_groups
}.

(** The years of the records named [n], in input order. *)
Definition years_of (n : string) (all_results : list runner) : list string :=
  year <$> filter (λ r, name r = n) all_results.

(** The records named [n] span more than one distinct year. *)
Definition spans_years (all_results : list runner) (n : string) : Prop :=
  ∃ r1 r2, r1 ∈ all_results ∧ r2 ∈ all_results ∧
    name r1 = n ∧ name r2 = n ∧ year r1 ≠ year r2.

(** The display name chosen for [r]. *)
Definition shown_name (all_results : list runner) (r : runner) : string :=
  if decide (1 < distinct_years (years_of (name r) all_results))%nat
  then name r +:+ " (" +:+ year r +:+ ")"
  else name r.

(** The conclusion of C10 for one pool: every record has a front time [t],
    its distance [time_seconds r - t] is non-negative and is zero on the
    front; whenever [t] is truthy this difference is what the program stores
    as the record's distance. *)
Definition distances_nonnegative (pool : list runner) : Prop :=
  ∃ fr, compute_pareto_front pool = Ret fr ∧
    ∀ r, r ∈ pool →
      ∃ t, get_pareto_time_at_age (age r) fr = Ret (Some t) ∧
        (0 <= time_seconds r - t)%Q ∧
        (r ∈ fr → (time_seconds r - t == 0)%Q) ∧
        (¬ (t == 0)%Q → distance_to_pareto r fr = Ret (Some (time_seconds r - t)%Q)).

(** * More of the program

    ** Winner lists of [load_race_data] *)

(** [xs.sort(key=key)]: the stable sort that uses only [<] on keys.  An
    element is placed after the elements of the sorted tail whose key is
    strictly smaller, and before the first other element. *)
Section py_sort.
Context {A K : Type} (lt : relation K) `{!RelDecision lt} (key : A → K).

Fixpoint insert_by (x : A) (xs : list A) : list A :=
  match xs with
  | [] => [x]
  | y :: ys => if decide (lt (key y) (key x)) then y :: insert_by x ys else x :: y :: ys
  end.

Fixpoint sort_by (xs : list A) : list A :=
  match xs with
  | [] => []
  | x :: xs' => insert_by x (sort_by xs')
  end.
End py_sort.

(** ['F' < 'M'] on the two sex codes. *)
Definition sex_lt (s1 s2 : sex_t) : Prop := s1 = F ∧ s2 = M.

(** [<] on the tuples [(sex, age)]. *)
Definition sex_age_lt (k1 k2 : sex_t * Z) : Prop :=
  sex_lt k1.1 k2.1 ∨ (k1.1 = k2.1 ∧ k1.2 < k2.2).

#[global] Instance sex_lt_dec : RelDecision sex_lt.
Proof. intros s1 s2. unfold sex_lt. apply _. Defined.

#[global] Instance sex_age_lt_dec : RelDecision sex_age_lt.
Proof. intros k1 k2. unfold sex_age_lt. apply _. Defined.

#[global] Instance sex_countable : Countable sex_t :=
  inj_countable' (λ s, match s with M => true | F => false end)
                 (λ b, if b then M else F) (λ s, match s with M | F => eq_refl end).

(** An entry of [pareto_winners]. *)
Record pareto_winner : Type := ParetoWinner {
  pw_name : string;
  pw_age : Z;
  pw_sex : sex_t;
  pw_time_display : string;
  pw_is_age_group_winner : bool
}.

(** The keys [(name, age, sex)] of the rows with division place ['1'] and a
    non-empty division. *)
Definition age_group_winner_set (results : list runner) : gset (string * Z * sex_t) :=
  foldl (λ winner_set result,
           if decide (div_place result = "1" ∧ division result ≠ "")
           then winner_set ∪ {[ (name result, age result, sex result) ]}
           else winner_set)
        ∅ results.

(** The entry appended for a front record [r] of the front of sex [s]. *)
Definition pareto_winner_of (winner_set : gset (string * Z * sex_t)) (s : sex_t) (r : runner)
    : pareto_winner :=
  ParetoWinner (name r) (age r) s (time_display r)
               (bool_decide ((name r, age r, s) ∈ winner_set)).

(** The two loops over the fronts, then the sort by [(sex, age)]. *)
Definition pareto_winners (winner_set : gset (string * Z * sex_t))
    (male_pareto female_pareto : list runner) : list pareto_winner :=
  let winners := foldl (λ acc r, acc ++ [pareto_winner_of winner_set M r]) [] male_pareto in
  let winners := foldl (λ acc r, acc ++ [pareto_winner_of winner_set F r]) winners female_pareto in
  sort_by sex_age_lt (λ x, (pw_sex x, pw_age x)) winners.

(** The keys added to [pareto_runner_set] by the same two loops. *)
Definition pareto_runner_set (male_pareto female_pareto : list runner)
    : gset (string * Z * sex_t) :=
  let runner_set := foldl (λ acc r, acc ∪ {[ (name r, age r, M) ]}) ∅ male_pareto in
  foldl (λ acc r, acc ∪ {[ (name r, age r, F) ]}) runner_set female_pareto.

(** An entry of [age_group_winners]; the key ['is_pareto'] is absent until
    the last loop sets it. *)
Record age_group_winner : Type := AgeGroupWinner {
  agw_name : string;
  agw_age : Z;
  agw_sex : sex_t;
  agw_division : string;
  agw_time_display : string;
  agw_is_pareto : option bool
}.

Definition age_group_winner_of (result : runner) : age_group_winner :=
  AgeGroupWinner (name result) (age result) (sex result) (division result)
                 (time_display result) None.

(** [<] on the tuples [(sex, division)]; strings compare character by
    character. *)
Definition sex_division_lt (k1 k2 : sex_t * string) : Prop :=
  sex_lt k1.1 k2.1 ∨ (k1.1 = k2.1 ∧ String.ltb k1.2 k2.2 = true).

#[global] Instance sex_division_lt_dec : RelDecision sex_division_lt.
Proof. intros k1 k2. unfold sex_division_lt. apply _. Defined.

(** The loop over [results] that collects the division winners, the sort by
    [(sex, division)], and the loop that sets ['is_pareto']. *)
Definition age_group_winners (results : list runner)
    (runner_set : gset (string * Z * sex_t)) : list age_group_winner :=
  let winners :=
    foldl (λ acc result,
             if decide (div_place result = "1" ∧ division result ≠ "")
             then acc ++ [age_group_winner_of result]
             else acc)
          [] results in
  let winners := sort_by sex_division_lt (λ x, (agw_sex x, agw_division x)) winners in
  (λ winner,
     AgeGroupWinner (agw_name winner) (agw_age winner) (agw_sex winner)
       (agw_division winner) (agw_time_display winner)
       (Some (bool_decide ((agw_name winner, agw_age winner, agw_sex winner) ∈ runner_set))))
  <$> winners.

(** ** Rankings of [load_race_data] *)

(** An entry of [male_data] / [female_data]. *)
Record runner_data : Type := RunnerData {
  rd_age : Z;
  rd_time_seconds : Q;
  rd_time_display : string;
  rd_name : string;
  rd_distance_to_pareto : option Q;
  rd_blocking_runners : nat
}.

(** Body of the loops [for result in male_results] / [female_results]. *)
Definition runner_data_of (pareto_front pool : list runner) (result : runner) : py runner_data :=
  distance ← distance_to_pareto result pareto_front;
  blocking ← count_blocking_runners result pool;
  mret (RunnerData (age result) (time_seconds result) (time_display result) (name result)
                   distance blocking).

(** An entry of [all_runners_adjusted]; a missing distance becomes [0]. *)
Record adjusted_runner : Type := AdjustedRunner {
  adj_name : string;
  adj_age : Z;
  adj_sex : sex_t;
  adj_time_display : string;
  adj_time_seconds : Q;
  adj_distance_to_pareto : Q;
  adj_blocking_runners : nat
}.

Definition adjusted_of (s : sex_t) (d : runner_data) : adjusted_runner :=
  AdjustedRunner (rd_name d) (rd_age d) s (rd_time_display d) (rd_time_seconds d)
                 (match rd_distance_to_pareto d with Some x => x | None => 0%Q end)
                 (rd_blocking_runners d).

(** [<] on the tuples [(distance_to_pareto, time_seconds)]. *)
Definition distance_time_lt (k1 k2 : Q * Q) : Prop :=
  (k1.1 < k2.1)%Q ∨ ((k1.1 == k2.1)%Q ∧ (k1.2 < k2.2)%Q).

#[global] Instance distance_time_lt_dec : RelDecision distance_time_lt.
Proof. intros k1 k2. unfold distance_time_lt. apply _. Defined.

(** The fronts, the per-runner metrics, and the ranking sorted by distance to
    the front and then by time. *)
Definition pareto_adjusted_rankings (male_results female_results : list runner)
    : py (list adjusted_runner) :=
  male_pareto ← compute_pareto_front male_results;
  female_pareto ← compute_pareto_front female_results;
  male_data ← mapM (runner_data_of male_pareto male_results) male_results;
  female_data ← mapM (runner_data_of female_pareto female_results) female_results;
  let all_runners_adjusted := foldl (λ acc d, acc ++ [adjusted_of M d]) [] male_data in
  let all_runners_adjusted :=
    foldl (λ acc d, acc ++ [adjusted_of F d]) all_runners_adjusted female_data in
  mret (sort_by distance_time_lt (λ x, (adj_distance_to_pareto x, adj_time_seconds x))
                all_runners_adjusted).

(** [male_results] and [female_results] are the rows of [results] of each
    sex; the ranking is built from them. *)
Definition results_of_sex (s : sex_t) (results : list runner) : list runner :=
  filter (λ r, sex r = s) results.

Definition all_runners_adjusted (results : list runner) : py (list adjusted_runner) :=
  let male_results := results_of_sex M results in
  let female_results := results_of_sex F results in
  pareto_adjusted_rankings male_results female_results.

(** ** All-time fronts of [load_race_data] *)

(** [load_raw_results] reads the results file of a year; here it is the
    table of the rows it returns for each year. *)
Section load_race_data.
Context (load_raw_results : string → list runner).

(** The years that count for the all-time front of a year's page. *)
Definition all_time_years (current_year : string) : list string :=
  if decide (current_year = "2025") then ["2023"; "2024"; "2025"]
  else if decide (current_year = "2024") then ["2023"; "2024"]
  else ["2023"].

(** [all_time_male_results] / [all_time_female_results]: the rows of one sex
    of every such year, in the order of the years. *)
Definition all_time_results (s : sex_t) (current_year : string) : list runner :=
  foldl (λ acc hist_year, acc ++ results_of_sex s (load_raw_results hist_year))
        [] (all_time_years current_year).
End load_race_data.

(** [male_all_time_pareto] / [female_all_time_pareto]. *)
Definition all_time_pareto (all_time_results : list runner) : py (list runner) :=
  if py_not all_time_results then mret []
  else compute_pareto_front (get_fastest_at_each_age all_time_results).

(** An entry of [male_all_time_pareto_data] / [female_all_time_pareto_data]. *)
Record all_time_entry : Type := AllTimeEntry {
  ate_age : Z;
  ate_time_seconds : Q;
  ate_time_display : string;
  ate_name : string;
  ate_year : string;
  ate_is_current_year : bool
}.

Definition all_time_pareto_data (current_year : string) (all_time_pareto : list runner)
    : list all_time_entry :=
  (λ r, AllTimeEntry (age r) (time_seconds r) (time_display r) (name r) (year r)
                     (bool_decide (year r = current_year)))
  <$> all_time_pareto.

(** ** Vocabulary of the further properties *)

(** The front of sex [s] among the two fronts. *)
Definition pareto_of_sex (s : sex_t) (male_pareto female_pareto : list runner) : list runner :=
  match s with M => male_pareto | F => female_pareto end.

(** The ranking entry [e] is the row of record [r] of sex [s]. *)
Definition entry_of (s : sex_t) (r : runner) (e : adjusted_runner) : Prop :=
  adj_name e = name r ∧ adj_age e = age r ∧ adj_sex e = s ∧
  adj_time_display e = time_display r ∧ adj_time_seconds e = time_seconds r.

(** A list is ordered by distance to the front, ties by race time. *)
Definition ranked (ranking : list adjusted_runner) : Prop :=
  ∀ i j e1 e2, (i < j)%nat → ranking !! i = Some e1 → ranking !! j = Some e2 →
    (adj_distance_to_pareto e1 <= adj_distance_to_pareto e2)%Q ∧
    ((adj_distance_to_pareto e1 == adj_distance_to_pareto e2)%Q →
     (adj_time_seconds e1 <= adj_time_seconds e2)%Q).

(** A pool has one record per age and no record older than its peak ties
    the peak's time. *)
Definition regular_pool (pool : list runner) : Prop :=
  NoDup (age <$> pool) ∧ no_older_tie pool.

(** Results files of two years: 2025 has the two sample pools, 2024 a faster
    man aged 30 and an older one. *)
Definition sample_files (y : string) : list runner :=
  if decide (y = "2025") then sample_women ++ sample_pool
  else if decide (y = "2024") then [row "Hal" 30 1190 "2024"; row "Ian" 50 1400 "2024"]
  else [].

(** The results of a race of both sample pools, and their ranking. *)
Definition sample_results : list runner := sample_women ++ sample_pool.

Definition sample_ranking : list adjusted_runner :=
  match all_runners_adjusted sample_results with
  | Ret ranking => ranking
  | Raise _ => []
  end.


(** At most one record of [rs] attains the smallest time. *)
Definition unique_fastest (rs : list runner) : Prop :=
  ∀ x y, x ∈ rs → y ∈ rs →
    (∀ z, z ∈ rs → (time_seconds x <= time_seconds z)%Q) →
    (∀ z, z ∈ rs → (time_seconds y <= time_seconds z)%Q) →
    x = y.

(** No two different records of [rs] have the same time. *)
Definition distinct_times (rs : list runner) : Prop :=
  ∀ x y, x ∈ rs → y ∈ rs → (time_seconds x == time_seconds y)%Q → x = y.

(** * Proofs *)

(** ** The built-ins *)

Lemma first_min_elem_of {A K} (lt : relation K) (key : A → K) xs m :
  first_min lt key xs m → m ∈ xs.
Proof.
  intros (l1 & l2 & -> & _). apply elem_of_app. right. by apply elem_of_cons; left.
Qed.

Lemma first_max_elem_of {A K} (lt : relation K) (key : A → K) xs m :
  first_max lt key xs m → m ∈ xs.
Proof.
  intros (l1 & l2 & -> & _). apply elem_of_app. right. by apply elem_of_cons; left.
Qed.

Section builtins_facts.
Context {A K : Type} (lt : relation K) `{!RelDecision lt} (key : A → K).
Hypothesis lt_trans : ∀ a b c, lt a b → lt b c → lt a c.
Hypothesis nlt_trans : ∀ a b c, ¬ lt b a → ¬ lt c b → ¬ lt c a.
Hypothesis lt_irrefl : ∀ a, ¬ lt a a.

Lemma lt_nlt_trans a b c : lt a b → ¬ lt c b → lt a c.
Proof.
  intros Hab Hcb. destruct (decide (lt a c)) as [|Hac]; [done|].
  destruct (nlt_trans _ _ _ Hcb Hac Hab).
Qed.

Lemma nlt_lt_trans a b c : ¬ lt b a → lt b c → lt a c.
Proof.
  intros Hba Hbc. destruct (decide (lt a c)) as [|Hac]; [done|].
  destruct (nlt_trans _ _ _ Hac Hba Hbc).
Qed.

Lemma min_from_inv xs : ∀ pre best post,
  Forall (λ x, lt (key best) (key x)) pre →
  Forall (λ x, ¬ lt (key x) (key best)) post →
  first_min lt key (pre ++ best :: post ++ xs) (min_from lt key best xs).
Proof.
  induction xs as [|x xs IH]; intros pre best post Hpre Hpost; simpl.
  - rewrite app_nil_r. by exists pre, post.
  - case_decide as Hx.
    + specialize (IH (pre ++ best :: post) x []).
      rewrite <- app_assoc in IH. simpl in IH. apply IH; [|constructor].
      apply Forall_app. split; [|constructor].
      * eapply Forall_impl; [exact Hpre|]. simpl. eauto.
      * done.
      * eapply Forall_impl; [exact Hpost|]. simpl. intros y Hy.
        by apply lt_nlt_trans with (key best).
    + specialize (IH pre best (post ++ [x])).
      rewrite <- app_assoc in IH. simpl in IH. apply IH; [done|].
      apply Forall_app. split; [done|]. by constructor.
Qed.

Lemma py_min_first_min x xs :
  ∃ m, py_min lt key (x :: xs) = Ret m ∧ first_min lt key (x :: xs) m.
Proof.
  eexists. split; [done|]. by apply (min_from_inv xs [] x []).
Qed.

Lemma max_from_inv xs : ∀ pre best post,
  Forall (λ x, lt (key x) (key best)) pre →
  Forall (λ x, ¬ lt (key best) (key x)) post →
  first_max lt key (pre ++ best :: post ++ xs) (max_from lt key best xs).
Proof.
  induction xs as [|x xs IH]; intros pre best post Hpre Hpost; simpl.
  - rewrite app_nil_r. by exists pre, post.
  - case_decide as Hx.
    + specialize (IH (pre ++ best :: post) x []).
      rewrite <- app_assoc in IH. simpl in IH. apply IH; [|constructor].
      apply Forall_app. split; [|constructor].
      * eapply Forall_impl; [exact Hpre|]. simpl. eauto.
      * done.
      * eapply Forall_impl; [exact Hpost|]. simpl. intros y Hy.
        by apply nlt_lt_trans with (key best).
    + specialize (IH pre best (post ++ [x])).
      rewrite <- app_assoc in IH. simpl in IH. apply IH; [done|].
      apply Forall_app. split; [done|]. by constructor.
Qed.

Lemma py_max_first_max x xs :
  ∃ m, py_max lt key (x :: xs) = Ret m ∧ first_max lt key (x :: xs) m.
Proof.
  eexists. split; [done|]. by apply (max_from_inv xs [] x []).
Qed.

Lemma first_min_lower xs m x : first_min lt key xs m → x ∈ xs → ¬ lt (key x) (key m).
Proof.
  intros (l1 & l2 & -> & H1 & H2) Hx.
  rewrite elem_of_app, elem_of_cons in Hx. destruct Hx as [Hx|[->|Hx]].
  - rewrite Forall_forall in H1. intros Hlt.
    apply (lt_irrefl (key m)). eauto.
  - apply lt_irrefl.
  - rewrite Forall_forall in H2. eauto.
Qed.

Lemma first_max_upper xs m x : first_max lt key xs m → x ∈ xs → ¬ lt (key m) (key x).
Proof.
  intros (l1 & l2 & -> & H1 & H2) Hx.
  rewrite elem_of_app, elem_of_cons in Hx. destruct Hx as [Hx|[->|Hx]].
  - rewrite Forall_forall in H1. intros Hlt.
    apply (lt_irrefl (key m)). eauto.
  - apply lt_irrefl.
  - rewrite Forall_forall in H2. eauto.
Qed.
End builtins_facts.

Lemma Qnlt_trans (a b c : Q) : ¬ (b < a)%Q → ¬ (c < b)%Q → ¬ (c < a)%Q.
Proof. lra. Qed.

Lemma Znlt_trans (a b c : Z) : ¬ b < a → ¬ c < b → ¬ c < a.
Proof. lia. Qed.

Lemma py_min_time r rs :
  ∃ m, py_min Qlt time_seconds (r :: rs) = Ret m ∧ first_min Qlt time_seconds (r :: rs) m.
Proof. apply py_min_first_min; [apply Qlt_trans | apply Qnlt_trans]. Qed.

Lemma first_min_time_le rs m x :
  first_min Qlt time_seconds rs m → x ∈ rs → (time_seconds m <= time_seconds x)%Q.
Proof.
  intros Hm Hx. apply Qnot_lt_le.
  eapply first_min_lower; eauto using Qlt_trans, Qlt_irrefl.
Qed.

Lemma py_min_age r rs :
  ∃ m, py_min Z.lt age (r :: rs) = Ret m ∧ first_min Z.lt age (r :: rs) m.
Proof. apply py_min_first_min; [apply Z.lt_trans | apply Znlt_trans]. Qed.

Lemma py_max_age r rs :
  ∃ m, py_max Z.lt age (r :: rs) = Ret m ∧ first_max Z.lt age (r :: rs) m.
Proof. apply py_max_first_max; [apply Z.lt_trans | apply Znlt_trans]. Qed.

Lemma first_min_age_le rs m x : first_min Z.lt age rs m → x ∈ rs → age m ≤ age x.
Proof.
  intros Hm Hx. apply Z.nlt_ge.
  eapply first_min_lower; eauto using Z.lt_trans, Z.lt_irrefl.
Qed.

Lemma first_max_age_ge rs m x : first_max Z.lt age rs m → x ∈ rs → age x ≤ age m.
Proof.
  intros Hm Hx. apply Z.nlt_ge.
  eapply first_max_upper; eauto using Z.lt_trans, Z.lt_irrefl.
Qed.

(** ** The stable sort *)

Lemma insert_by_age_perm x l : insert_by_age x l ≡ₚ x :: l.
Proof.
  induction l as [|y l IH]; simpl; [done|].
  case_decide; [done|]. rewrite IH. apply Permutation_swap.
Qed.

Lemma sorted_by_age_perm l : sorted_by_age l ≡ₚ l.
Proof.
  induction l as [|x l IH]; simpl; [done|].
  by rewrite insert_by_age_perm, IH.
Qed.

Lemma sorted_by_age_elem_of l x : x ∈ sorted_by_age l ↔ x ∈ l.
Proof. by rewrite sorted_by_age_perm. Qed.

Lemma insert_by_age_sorted x l :
  StronglySorted age_le l → StronglySorted age_le (insert_by_age x l).
Proof.
  induction 1 as [|y l Hl IH Hy]; simpl.
  - repeat constructor.
  - case_decide as Hxy.
    + constructor; [by constructor|]. constructor; [done|].
      eapply Forall_impl; [exact Hy|]. unfold age_le. simpl. lia.
    + constructor; [done|]. rewrite insert_by_age_perm.
      constructor; [unfold age_le; lia|done].
Qed.

Lemma sorted_by_age_sorted l : StronglySorted age_le (sorted_by_age l).
Proof.
  induction l; simpl; [constructor|]. by apply insert_by_age_sorted.
Qed.

(** Stability: records of one age keep their relative order. *)
Lemma insert_by_age_stable a x l :
  filter (λ r, age r = a) (insert_by_age x l) = filter (λ r, age r = a) (x :: l).
Proof.
  induction l as [|y l IH]; simpl; [done|].
  case_decide as Hxy; [done|].
  rewrite (filter_cons _ y), IH, !filter_cons.
  repeat case_decide; try done; lia.
Qed.

Lemma sorted_by_age_stable a l :
  filter (λ r, age r = a) (sorted_by_age l) = filter (λ r, age r = a) l.
Proof.
  induction l as [|x l IH]; simpl; [done|].
  by rewrite insert_by_age_stable, !filter_cons, IH.
Qed.

(** A list already in age order is returned unchanged. *)
Lemma sorted_by_age_id l : StronglySorted age_le l → sorted_by_age l = l.
Proof.
  induction 1 as [|x l Hl IH Hx]; simpl; [done|].
  rewrite IH. destruct Hx as [|y l Hxy _]; simpl; [done|].
  by rewrite decide_True.
Qed.

(** ** The scan loops *)

Lemma foldl_front_step xs : ∀ acc best,
  (foldl front_step (acc, best) xs).1 = acc ++ scan best xs.
Proof.
  induction xs as [|r xs IH]; intros acc best; simpl.
  - by rewrite app_nil_r.
  - unfold front_step at 2. simpl. case_decide.
    + by rewrite IH, <- app_assoc.
    + by rewrite IH.
Qed.

Lemma front_loop_scan xs : front_loop xs = scan Inf xs.
Proof. apply foldl_front_step. Qed.

Lemma scan_sublist xs : ∀ best, scan best xs `sublist_of` xs.
Proof.
  induction xs as [|r xs IH]; intros best; simpl; [done|].
  case_decide; [by apply sublist_skip | by apply sublist_cons].
Qed.

Lemma scan_elem_of best xs x : x ∈ scan best xs → x ∈ xs.
Proof. intros Hx. eapply elem_of_sublist; [exact Hx|apply scan_sublist]. Qed.

Lemma scan_below xs : ∀ best,
  Forall (λ r, lt_bound (time_seconds r) best) (scan best xs).
Proof.
  induction xs as [|r xs IH]; intros best; simpl; [done|].
  case_decide as Hr; [|done]. constructor; [done|].
  eapply Forall_impl; [apply IH|]. simpl. intros y Hy.
  destruct best; simpl in *; [done|lra].
Qed.

Lemma scan_decreasing xs : ∀ best, StronglySorted faster_later (scan best xs).
Proof.
  induction xs as [|r xs IH]; intros best; simpl; [constructor|].
  case_decide; [|done]. constructor; [done|]. apply (scan_below xs (Fin _)).
Qed.

(** A list whose times already strictly decrease is kept whole. *)
Lemma scan_id xs : ∀ best,
  StronglySorted faster_later xs →
  Forall (λ r, lt_bound (time_seconds r) best) xs →
  scan best xs = xs.
Proof.
  induction xs as [|r xs IH]; intros best Hs Hb; simpl; [done|].
  apply StronglySorted_inv in Hs as [Hs Hr]. apply Forall_cons in Hb as [Hb1 Hb2].
  rewrite decide_True by done. f_equal. by apply IH.
Qed.

(** A record that beats everything scanned before it is appended. *)
Lemma scan_keeps l1 : ∀ best x l2,
  Forall (λ y, (time_seconds x < time_seconds y)%Q) l1 →
  lt_bound (time_seconds x) best →
  x ∈ scan best (l1 ++ x :: l2).
Proof.
  induction l1 as [|y l1 IH]; intros best x l2 Hl1 Hb; simpl.
  - rewrite decide_True by done. by apply elem_of_cons; left.
  - apply Forall_cons in Hl1 as [Hy Hl1]. case_decide.
    + apply elem_of_cons. right. by apply IH.
    + by apply IH.
Qed.

(** Every scanned record is matched by an appended record that is no slower
    and was scanned no later, unless the initial bound already beats it. *)
Lemma scan_cover (R : relation runner) xs : ∀ best x,
  StronglySorted R xs → x ∈ xs →
  (∃ y, y ∈ scan best xs ∧ (y = x ∨ R y x) ∧ (time_seconds y <= time_seconds x)%Q)
  ∨ ¬ lt_bound (time_seconds x) best.
Proof.
  induction xs as [|z xs IH]; intros best x Hs Hx; [by apply elem_of_nil in Hx|].
  apply StronglySorted_inv in Hs as [Hs Hz]. simpl.
  apply elem_of_cons in Hx as [->|Hx].
  - case_decide; [left|by right].
    exists z. split; [by apply elem_of_cons; left|]. split; [by left|lra].
  - case_decide as Hzb.
    + left. destruct (IH (Fin (time_seconds z)) x Hs Hx) as [(y & Hy & HR & Ht)|Hn].
      * exists y. split; [by apply elem_of_cons; right|done].
      * exists z. split; [by apply elem_of_cons; left|]. split.
        -- right. rewrite Forall_forall in Hz. auto.
        -- simpl in Hn. lra.
    + apply (IH best x Hs Hx).
Qed.

(** ** Strongly sorted lists *)

Section strongly_sorted.
Context {A : Type}.
Implicit Types (R : relation A) (l : list A).

Lemma StronglySorted_sublist R l k :
  k `sublist_of` l → StronglySorted R l → StronglySorted R k.
Proof.
  induction 1 as [|x k l Hkl IH|x k l Hkl IH]; intros Hs.
  - constructor.
  - apply StronglySorted_inv in Hs as [Hs Hx]. constructor; [auto|].
    rewrite Forall_forall in Hx |- *. eauto using elem_of_sublist.
  - apply StronglySorted_inv in Hs as [Hs _]. auto.
Qed.

Lemma StronglySorted_and R1 R2 l :
  StronglySorted R1 l → StronglySorted R2 l →
  StronglySorted (λ x y, R1 x y ∧ R2 x y) l.
Proof.
  induction 1 as [|x l Hl IH Hx]; intros H2; [constructor|].
  apply StronglySorted_inv in H2 as [H2 Hx2]. constructor; [auto|].
  rewrite Forall_forall in Hx, Hx2 |- *. auto.
Qed.

Lemma StronglySorted_impl R1 R2 l :
  (∀ x y, x ∈ l → y ∈ l → R1 x y → R2 x y) →
  StronglySorted R1 l → StronglySorted R2 l.
Proof.
  intros HR Hs. induction Hs as [|x l Hl IH Hx]; [constructor|].
  constructor.
  - apply IH. intros y z Hy Hz. apply HR; by apply elem_of_cons; right.
  - rewrite Forall_forall in Hx |- *. intros y Hy.
    apply HR; [by apply elem_of_cons; left|by apply elem_of_cons; right|auto].
Qed.

Lemma StronglySorted_snoc R l x :
  StronglySorted R l → Forall (λ y, R y x) l → StronglySorted R (l ++ [x]).
Proof.
  induction 1 as [|y l Hl IH Hy]; intros Hx; simpl.
  - repeat constructor.
  - apply Forall_cons in Hx as [Hyx Hx]. constructor; [auto|].
    apply Forall_app. split; [done|]. by constructor.
Qed.

Lemma StronglySorted_reverse R l :
  StronglySorted R l → StronglySorted (flip R) (reverse l).
Proof.
  induction 1 as [|x l Hl IH Hx]; [constructor|].
  rewrite reverse_cons. apply StronglySorted_snoc; [done|].
  rewrite Forall_forall in Hx |- *. intros y Hy. rewrite elem_of_reverse in Hy. unfold flip. auto.
Qed.

(** In a strongly sorted list, related positions are related elements. *)
Lemma StronglySorted_lookup R l i j x y :
  StronglySorted R l → (i < j)%nat → l !! i = Some x → l !! j = Some y → R x y.
Proof.
  intros Hs. revert i j. induction Hs as [|z l Hl IH Hz]; intros i j Hij Hi Hj.
  - by rewrite lookup_nil in Hi.
  - destruct j as [|j]; [lia|]. destruct i as [|i]; simpl in *.
    + injection Hi as ->. rewrite Forall_forall in Hz.
      eapply Hz, list_elem_of_lookup_2, Hj.
    + apply (IH i j); [lia|done..].
Qed.

(** Two members of a strongly sorted list are equal or related one way. *)
Lemma StronglySorted_elem_of R l x y :
  StronglySorted R l → x ∈ l → y ∈ l → x = y ∨ R x y ∨ R y x.
Proof.
  induction 1 as [|z l Hl IH Hz]; intros Hx Hy; [by apply elem_of_nil in Hx|].
  rewrite Forall_forall in Hz.
  apply elem_of_cons in Hx as [->|Hx]; apply elem_of_cons in Hy as [->|Hy]; auto.
Qed.
End strongly_sorted.

(** ** The two halves of the front *)

Lemma compute_pareto_front_cons r rs :
  ∃ peak, py_min Qlt time_seconds (r :: rs) = Ret peak ∧
    first_min Qlt time_seconds (r :: rs) peak ∧
    compute_pareto_front (r :: rs) =
      Ret (younger_front (age peak) (r :: rs) ++ older_front (age peak) (r :: rs)).
Proof.
  destruct (py_min_time r rs) as (peak & Hmin & Hfirst).
  exists peak. split; [done|]. split; [done|].
  unfold compute_pareto_front. simpl py_not. cbv iota.
  rewrite Hmin. simpl. by rewrite !front_loop_scan.
Qed.

Section halves.
Context (p : Z) (rs : list runner).

Lemma younger_front_elem_of y : y ∈ younger_front p rs → y ∈ rs ∧ age y < p.
Proof.
  intros Hy%scan_elem_of. apply list_elem_of_filter in Hy as [Hp Hy].
  rewrite sorted_by_age_elem_of in Hy. split; [exact Hy|exact Hp].
Qed.

Lemma older_front_elem_of o : o ∈ older_front p rs → o ∈ rs ∧ p ≤ age o.
Proof.
  unfold older_front. rewrite elem_of_reverse. intros Ho%scan_elem_of.
  rewrite elem_of_reverse in Ho. apply list_elem_of_filter in Ho as [Hp Ho].
  rewrite sorted_by_age_elem_of in Ho. simpl in Hp. split; [exact Ho|lia].
Qed.

Lemma younger_front_sorted : StronglySorted toward_peak (younger_front p rs).
Proof.
  apply StronglySorted_and; [|apply scan_decreasing].
  eapply StronglySorted_sublist; [apply scan_sublist|].
  eapply StronglySorted_sublist; [apply sublist_filter; apply _|].
  apply sorted_by_age_sorted.
Qed.

Lemma older_front_sorted : StronglySorted away_from_peak (older_front p rs).
Proof.
  eapply StronglySorted_impl; [|apply StronglySorted_reverse].
  2: { apply (StronglySorted_and (flip age_le) faster_later); [|apply scan_decreasing].
       eapply StronglySorted_sublist; [apply scan_sublist|].
       apply StronglySorted_reverse.
       eapply StronglySorted_sublist; [apply sublist_filter; apply _|].
       apply sorted_by_age_sorted. }
  intros x y _ _ [H1 H2]. split; [exact H1|exact H2].
Qed.

(** Every younger record is matched on the front by a record that is no
    older and no slower. *)
Lemma younger_front_cover x :
  x ∈ rs → age x < p →
  ∃ y, y ∈ younger_front p rs ∧ age y ≤ age x ∧ (time_seconds y <= time_seconds x)%Q.
Proof.
  intros Hx Hp.
  destruct (scan_cover age_le (filter (λ r, age r < p) (sorted_by_age rs)) Inf x)
    as [(y & Hy & HR & Ht)|Hn].
  - eapply StronglySorted_sublist; [apply sublist_filter; apply _|].
    apply sorted_by_age_sorted.
  - apply list_elem_of_filter. split; [done|]. by apply sorted_by_age_elem_of.
  - exists y. split; [done|]. split; [|done].
    destruct HR as [->|HR]; [lia|exact HR].
  - by destruct Hn.
Qed.

(** Every record at or beyond the peak age is matched on the front by a
    record that is no younger and no slower. *)
Lemma older_front_cover x :
  x ∈ rs → p ≤ age x →
  ∃ o, o ∈ older_front p rs ∧ age x ≤ age o ∧ (time_seconds o <= time_seconds x)%Q.
Proof.
  intros Hx Hp.
  destruct (scan_cover (flip age_le)
              (reverse (filter (λ r, age r >= p) (sorted_by_age rs))) Inf x)
    as [(y & Hy & HR & Ht)|Hn].
  - apply StronglySorted_reverse.
    eapply StronglySorted_sublist; [apply sublist_filter; apply _|].
    apply sorted_by_age_sorted.
  - rewrite elem_of_reverse. apply list_elem_of_filter.
    split; [lia|]. by apply sorted_by_age_elem_of.
  - exists y. split; [unfold older_front; by rewrite elem_of_reverse|].
    split; [|done]. destruct HR as [->|HR]; [lia|exact HR].
  - by destruct Hn.
Qed.

(** The older half starts with a record that is fastest among the records at
    or beyond the peak age. *)
Lemma older_front_head x :
  x ∈ rs → p ≤ age x →
  ∃ o os, older_front p rs = o :: os ∧
    ∀ z, z ∈ rs → p ≤ age z → (time_seconds o <= time_seconds z)%Q.
Proof.
  intros Hx Hp. destruct (older_front_cover x Hx Hp) as (o' & Ho' & _).
  pose proof older_front_sorted as Hs.
  destruct (older_front p rs) as [|o os] eqn:Heq; [by apply elem_of_nil in Ho'|].
  exists o, os. split; [done|]. intros z Hz Hpz.
  destruct (older_front_cover z Hz Hpz) as (o2 & Ho2 & _ & Ht).
  rewrite Heq in Ho2. apply StronglySorted_inv in Hs as [_ Hs].
  rewrite Forall_forall in Hs.
  apply elem_of_cons in Ho2 as [->|Ho2]; [done|].
  destruct (Hs _ Ho2) as [_ Hlt]. lra.
Qed.
End halves.

(** ** C1: the peak record *)

(** A record at or beyond the peak age that is strictly faster than every
    other such record is on the older half. *)
Lemma older_front_keeps p rs x :
  x ∈ rs → p ≤ age x →
  (∀ z, z ∈ rs → p ≤ age z → (time_seconds z <= time_seconds x)%Q → z = x) →
  x ∈ older_front p rs.
Proof.
  intros Hx Hp Hbest. unfold older_front. rewrite elem_of_reverse.
  assert (x ∈ reverse (filter (λ r, age r >= p) (sorted_by_age rs))) as Hin.
  { rewrite elem_of_reverse. apply list_elem_of_filter.
    split; [lia|]. by rewrite sorted_by_age_elem_of. }
  apply list_elem_of_split_l in Hin as (l1 & l2 & Heq & Hnot).
  rewrite Heq. apply scan_keeps; [|done].
  apply Forall_forall. intros z Hz.
  destruct (decide (time_seconds x < time_seconds z)%Q) as [|Hn]; [done|].
  assert (z ∈ reverse (filter (λ r, age r >= p) (sorted_by_age rs))) as Hz'.
  { rewrite Heq. apply elem_of_app. by left. }
  rewrite elem_of_reverse in Hz'. apply list_elem_of_filter in Hz' as [Hpz Hz'].
  rewrite sorted_by_age_elem_of in Hz'. simpl in Hpz.
  rewrite (Hbest z) in Hz; [done|done|lia|lra].
Qed.

Lemma tied_older_peak :
  py_min Qlt time_seconds tied_older_pool = Ret (row "Ann" 20 100 "2025").
Proof. reflexivity. Qed.

Lemma tied_older_front :
  compute_pareto_front tied_older_pool = Ret [row "Bea" 30 100 "2025"].
Proof. vm_compute. reflexivity. Qed.

(** C1, as stated, fails: with two records tied for the fastest time, the
    first one (age 20) is the peak, but the scan from the oldest record keeps
    only the record of age 30. *)
Lemma peak_on_front_tied_older : ¬ peak_on_front tied_older_pool.
Proof.
  intros (peak & fr & Hmin & Hfr & Hin).
  rewrite tied_older_peak in Hmin. rewrite tied_older_front in Hfr.
  injection Hmin as <-. injection Hfr as <-.
  apply list_elem_of_singleton in Hin. discriminate Hin.
Qed.

(** C1, amended: for a non-empty input the front contains a record with the
    globally minimum time (of age at least the peak age), and it contains the
    peak record itself whenever no other record at or beyond the peak age
    ties the peak's time. *)
Theorem front_contains_fastest (rs : list runner) :
  rs ≠ [] →
  ∃ peak fr,
    py_min Qlt time_seconds rs = Ret peak ∧
    first_min Qlt time_seconds rs peak ∧
    compute_pareto_front rs = Ret fr ∧
    (∃ r, r ∈ fr ∧ r ∈ rs ∧ age peak ≤ age r ∧
          (time_seconds r == time_seconds peak)%Q ∧
          ∀ z, z ∈ rs → (time_seconds r <= time_seconds z)%Q) ∧
    ((∀ z, z ∈ rs → age peak ≤ age z →
           (time_seconds z == time_seconds peak)%Q → z = peak) →
     peak ∈ fr).
Proof.
  intros Hne. destruct rs as [|r0 rs]; [done|].
  destruct (compute_pareto_front_cons r0 rs) as (peak & Hmin & Hfirst & Hfr).
  exists peak, (younger_front (age peak) (r0 :: rs) ++ older_front (age peak) (r0 :: rs)).
  pose proof (first_min_elem_of _ _ _ _ Hfirst) as Hpeak.
  pose proof (λ z, first_min_time_le _ _ z Hfirst) as Hle.
  do 3 (split; [done|]). split.
  - destruct (older_front_head (age peak) (r0 :: rs) peak Hpeak) as (o & os & Heq & Ho); [lia|].
    assert (o ∈ older_front (age peak) (r0 :: rs)) as Hin
      by (rewrite Heq; apply elem_of_cons; by left).
    pose proof (older_front_elem_of _ _ _ Hin) as [Hors Hage].
    assert (time_seconds o == time_seconds peak)%Q as Heqt.
    { apply Qle_antisym; [apply Ho; [done|lia]|by apply Hle]. }
    exists o. split; [apply elem_of_app; by right|].
    do 3 (split; [done|]). intros z Hz. rewrite Heqt. by apply Hle.
  - intros Honly. apply elem_of_app. right.
    apply older_front_keeps; [done|lia|].
    intros z Hz Hage Ht. apply Honly; [done..|].
    apply Qle_antisym; [done|by apply Hle].
Qed.

Lemma front_contains_fastest_witness :
  ∃ peak fr,
    py_min Qlt time_seconds sample_pool = Ret peak ∧
    first_min Qlt time_seconds sample_pool peak ∧
    compute_pareto_front sample_pool = Ret fr ∧
    (∃ r, r ∈ fr ∧ r ∈ sample_pool ∧ age peak ≤ age r ∧
          (time_seconds r == time_seconds peak)%Q ∧
          ∀ z, z ∈ sample_pool → (time_seconds r <= time_seconds z)%Q) ∧
    ((∀ z, z ∈ sample_pool → age peak ≤ age z →
           (time_seconds z == time_seconds peak)%Q → z = peak) →
     peak ∈ fr).
Proof. apply (front_contains_fastest sample_pool). discriminate. Defined.

(** ** C2: shape of the front *)

(** Any order in which the sorted input is strongly sorted is inherited by
    both halves of the front. *)
Lemma younger_front_inherits (R : relation runner) p rs :
  StronglySorted R (sorted_by_age rs) → StronglySorted R (younger_front p rs).
Proof.
  intros Hs. eapply StronglySorted_sublist; [apply scan_sublist|].
  eapply StronglySorted_sublist; [apply sublist_filter; apply _|]. exact Hs.
Qed.

Lemma older_front_inherits (R : relation runner) p rs :
  StronglySorted R (sorted_by_age rs) → StronglySorted R (older_front p rs).
Proof.
  intros Hs. eapply StronglySorted_impl; [|apply StronglySorted_reverse].
  2: { eapply StronglySorted_sublist; [apply scan_sublist|].
       apply StronglySorted_reverse.
       eapply StronglySorted_sublist; [apply sublist_filter; apply _|]. exact Hs. }
  intros x y _ _ H. exact H.
Qed.

Lemma StronglySorted_age_strict l :
  StronglySorted age_le l → NoDup (age <$> l) → StronglySorted age_lt l.
Proof.
  induction 1 as [|x l Hl IH Hx]; intros Hnd; [constructor|].
  rewrite fmap_cons in Hnd. apply NoDup_cons in Hnd as [Hnotin Hnd].
  constructor; [auto|]. rewrite Forall_forall in Hx |- *. intros y Hy.
  specialize (Hx y Hy). unfold age_le, age_lt in *.
  destruct (decide (age x = age y)) as [Heq|]; [|lia].
  destruct Hnotin. rewrite Heq. by apply list_elem_of_fmap_2.
Qed.

Lemma sorted_by_age_strict rs :
  NoDup (age <$> rs) → StronglySorted age_lt (sorted_by_age rs).
Proof.
  intros Hnd. apply StronglySorted_age_strict; [apply sorted_by_age_sorted|].
  by rewrite sorted_by_age_perm.
Qed.

(** The whole front is in age order; the halves meet at the peak age. *)
Lemma front_age_sorted (R : relation runner) p rs :
  (∀ x y, age x < p → p ≤ age y → R x y) →
  StronglySorted R (sorted_by_age rs) →
  StronglySorted R (younger_front p rs ++ older_front p rs).
Proof.
  intros Hacross Hs. apply StronglySorted_app_2.
  - intros x y [_ Hx]%younger_front_elem_of [_ Hy]%older_front_elem_of. auto.
  - by apply younger_front_inherits.
  - by apply older_front_inherits.
Qed.

(** Distinct input ages: two records of the same age are the same record. *)
Lemma NoDup_age_inj (rs : list runner) x y :
  NoDup (age <$> rs) → x ∈ rs → y ∈ rs → age x = age y → x = y.
Proof.
  intros Hnd Hx Hy Heq.
  apply list_elem_of_lookup_1 in Hx as [i Hi]. apply list_elem_of_lookup_1 in Hy as [j Hj].
  assert (i = j) as ->; [|congruence].
  apply (NoDup_lookup (age <$> rs) i j (age x)); [done|..].
  - by rewrite list_lookup_fmap, Hi.
  - by rewrite list_lookup_fmap, Hj, Heq.
Qed.

(** On [tied_younger_pool] the front is Ann (20, 110), Cy (20, 100),
    Bea (30, 100): two entries share an age, and the time does not drop
    between Cy and the peak Bea. *)
Lemma tied_younger_front :
  compute_pareto_front tied_younger_pool =
    Ret [row "Ann" 20 110 "2025"; row "Cy" 20 100 "2025"; row "Bea" 30 100 "2025"].
Proof. vm_compute. reflexivity. Qed.

Lemma tied_younger_ages_not_increasing :
  ∃ fr, compute_pareto_front tied_younger_pool = Ret fr ∧ ¬ ages_increasing fr.
Proof.
  eexists. split; [apply tied_younger_front|].
  intros H. specialize (H 0%nat 1%nat _ _ ltac:(lia) eq_refl eq_refl). simpl in H. lia.
Qed.

(** C2, as stated, fails on [tied_younger_pool]. *)
Lemma front_strictly_ordered_fails : ¬ front_strictly_ordered tied_younger_pool.
Proof.
  intros (fr & Hfr & Hages & Htimes).
  rewrite tied_younger_front in Hfr. injection Hfr as <-.
  destruct (Htimes 2%nat) as [Hdec _].
  - eexists. split; [reflexivity|]. intros z Hz.
    repeat (apply elem_of_cons in Hz as [->|Hz]); [| | |by apply elem_of_nil in Hz];
      vm_compute; discriminate.
  - specialize (Hdec 1%nat 2%nat _ _ ltac:(lia) eq_refl eq_refl).
    vm_compute in Hdec. discriminate Hdec.
Qed.

(** C2, amended: along the front the ages never decrease, and strictly
    increase when no two input records share an age; with [p] the index of the
    first entry of age at least the peak age (the entries before [p] are the
    ones younger than the peak age), which for a non-empty input is an entry
    with the globally minimum time, the times strictly decrease before [p],
    are nowhere before [p] smaller than at [p], and strictly increase from [p]
    on; they strictly decrease over [0..p] when no record younger than the
    peak ties the minimum time. *)
Theorem front_shape (rs : list runner) :
  ∃ fr p,
    compute_pareto_front rs = Ret fr ∧
    (p ≤ length fr)%nat ∧
    (∀ peak i x, py_min Qlt time_seconds rs = Ret peak → fr !! i = Some x →
       ((i < p)%nat ↔ age x < age peak)) ∧
    ages_nondecreasing fr ∧
    (NoDup (age <$> rs) → ages_increasing fr) ∧
    (rs ≠ [] → fastest_at rs fr p) ∧
    times_weakly_unimodal fr p ∧
    (no_younger_tie rs → times_unimodal fr p).
Proof.
  destruct rs as [|r0 rs].
  { exists [], 0%nat. split; [done|]. split; [done|]. split; [intros; discriminate|].
    repeat split; try done; intros; try lia; by rewrite ?lookup_nil in *. }
  destruct (compute_pareto_front_cons r0 rs) as (peak & Hmin & Hfirst & Hfr).
  set (pool := r0 :: rs) in *. set (pa := age peak) in *.
  exists (younger_front pa pool ++ older_front pa pool), (length (younger_front pa pool)).
  pose proof (first_min_elem_of _ _ _ _ Hfirst) as Hpeak.
  pose proof (λ z, first_min_time_le _ _ z Hfirst) as Hle.
  destruct (older_front_head pa pool peak Hpeak ltac:(lia)) as (o & os & Heq & Ho).
  assert (∀ z, z ∈ pool → (time_seconds o <= time_seconds z)%Q) as Homin.
  { intros z Hz. specialize (Ho peak Hpeak ltac:(lia)). specialize (Hle z Hz). lra. }
  assert (∀ i j x y, (i < j < length (younger_front pa pool))%nat →
            (younger_front pa pool ++ older_front pa pool) !! i = Some x →
            (younger_front pa pool ++ older_front pa pool) !! j = Some y →
            (time_seconds y < time_seconds x)%Q) as Hbefore.
  { intros i j x y Hij Hi Hj. rewrite lookup_app_l in Hi, Hj by lia.
    by destruct (StronglySorted_lookup _ _ i j x y (younger_front_sorted pa pool)
                   ltac:(lia) Hi Hj). }
  assert (∀ i j x y, (length (younger_front pa pool) ≤ i < j)%nat →
            (younger_front pa pool ++ older_front pa pool) !! i = Some x →
            (younger_front pa pool ++ older_front pa pool) !! j = Some y →
            (time_seconds x < time_seconds y)%Q) as Hafter.
  { intros i j x y Hij Hi Hj. rewrite lookup_app_r in Hi, Hj by lia.
    by destruct (StronglySorted_lookup _ _ (i - length (younger_front pa pool))%nat
                   (j - length (younger_front pa pool))%nat x y
                   (older_front_sorted pa pool) ltac:(lia) Hi Hj). }
  assert ((younger_front pa pool ++ older_front pa pool) !! length (younger_front pa pool)
          = Some o) as Hp.
  { rewrite lookup_app_r by lia. by rewrite Nat.sub_diag, Heq. }
  split; [done|]. split; [rewrite length_app; lia|].
  split; [|split; [|split; [|split; [|split]]]].
  - intros peak' i x Hmin' Hi. rewrite Hmin in Hmin'. injection Hmin' as <-.
    apply lookup_app_Some in Hi as [Hi|[Hge Hi]].
    + pose proof (lookup_lt_Some _ _ _ Hi).
      apply list_elem_of_lookup_2, younger_front_elem_of in Hi as [_ Hage].
      fold pa. split; [done|lia].
    + apply list_elem_of_lookup_2, older_front_elem_of in Hi as [_ Hage].
      fold pa. split; lia.
  - intros i j x y Hij Hi Hj.
    eapply (StronglySorted_lookup age_le); [|exact Hij|exact Hi|exact Hj].
    apply front_age_sorted; [unfold age_le; intros; lia|apply sorted_by_age_sorted].
  - intros Hnd i j x y Hij Hi Hj.
    eapply (StronglySorted_lookup age_lt); [|exact Hij|exact Hi|exact Hj].
    apply front_age_sorted; [unfold age_lt; intros; lia|by apply sorted_by_age_strict].
  - intros _. by exists o.
  - split; [done|]. split; [|done].
    intros i x y Hi Hx Hy. rewrite Hp in Hy. injection Hy as <-.
    apply Homin. rewrite lookup_app_l in Hx by done.
    by apply list_elem_of_lookup_2, younger_front_elem_of in Hx as [Hx _].
  - intros Htie. split; [|done].
    intros i j x y Hij Hx Hy.
    destruct (decide (j = length (younger_front pa pool))) as [->|Hne].
    + rewrite Hp in Hy. injection Hy as <-.
      rewrite lookup_app_l in Hx by lia.
      apply list_elem_of_lookup_2, younger_front_elem_of in Hx as [Hx Hage].
      specialize (Htie peak x Hmin Hx Hage).
      specialize (Ho peak Hpeak ltac:(lia)). specialize (Hle x Hx).
      destruct (Qlt_le_dec (time_seconds o) (time_seconds x)) as [|Hge]; [done|].
      destruct Htie. apply Qle_antisym; [lra|done].
    + apply (Hbefore i j); [lia|done..].
Qed.

(** ** C3: non-domination *)

(** C3, as stated, fails on [tied_younger_pool]: Ann (20, 110) and
    Cy (20, 100) are both on the front, on the same side and equally far from
    the peak age 30, and Cy is faster. *)
Lemma front_non_dominated_fails : ¬ front_non_dominated tied_younger_pool.
Proof.
  intros (fr & Hfr & Hnd).
  rewrite tied_younger_front in Hfr. injection Hfr as <-.
  apply (Hnd (row "Bea" 30 100 "2025") eq_refl 0%nat 1%nat _ _ ltac:(lia) eq_refl eq_refl).
  split; [left; simpl; lia|]. split; [simpl; lia|]. vm_compute. discriminate.
Qed.

Lemma halves_not_strictly_dominated pa rs e1 e2 :
  e1 ∈ younger_front pa rs ++ older_front pa rs →
  e2 ∈ younger_front pa rs ++ older_front pa rs →
  ¬ strictly_dominated_by pa e1 e2.
Proof.
  intros H1 H2 (Hside & Hfar & Ht).
  apply elem_of_app in H1. apply elem_of_app in H2.
  assert (∀ e, e ∈ younger_front pa rs → age e < pa) as HY
    by (by intros e [_ ?]%younger_front_elem_of).
  assert (∀ e, e ∈ older_front pa rs → pa ≤ age e) as HO
    by (by intros e [_ ?]%older_front_elem_of).
  destruct Hside as [[Ha1 Ha2]|[Ha1 Ha2]].
  - destruct H1 as [H1|H1]; [|apply HO in H1; lia].
    destruct H2 as [H2|H2]; [|apply HO in H2; lia].
    destruct (StronglySorted_elem_of _ _ e1 e2 (younger_front_sorted pa rs) H1 H2)
      as [->|[[Hage Hlt]|[Hage Hlt]]]; [lia|lia|lra].
  - destruct H1 as [H1|H1]; [apply HY in H1; lia|].
    destruct H2 as [H2|H2]; [apply HY in H2; lia|].
    destruct (StronglySorted_elem_of _ _ e1 e2 (older_front_sorted pa rs) H1 H2)
      as [->|[[Hage Hlt]|[Hage Hlt]]]; [lia|lra|lia].
Qed.

(** C3, amended: no entry of the front is dominated by an entry that is
    strictly farther from the peak on the same side; when no two input records
    share an age, no entry is dominated by another entry at least as far from
    the peak. *)
Theorem front_not_dominated (rs : list runner) :
  ∃ fr, compute_pareto_front rs = Ret fr ∧
    ∀ peak, py_min Qlt time_seconds rs = Ret peak →
      (∀ e1 e2, e1 ∈ fr → e2 ∈ fr → ¬ strictly_dominated_by (age peak) e1 e2) ∧
      (NoDup (age <$> rs) →
       ∀ i j e1 e2, i ≠ j → fr !! i = Some e1 → fr !! j = Some e2 →
         ¬ dominated_by (age peak) e1 e2).
Proof.
  destruct rs as [|r0 rs]; [exists []; split; [done|]; intros peak; discriminate|].
  destruct (compute_pareto_front_cons r0 rs) as (peak & Hmin & Hfirst & Hfr).
  eexists. split; [exact Hfr|]. intros peak' Hmin'.
  rewrite Hmin in Hmin'. injection Hmin' as <-.
  split; [intros e1 e2; apply halves_not_strictly_dominated|].
  intros Hnd i j e1 e2 Hij H1 H2 (Hside & Hfar & Ht).
  assert (age e1 ≠ age e2) as Hages.
  { pose proof (front_age_sorted age_lt (age peak) (r0 :: rs)
                  ltac:(unfold age_lt; intros; lia) (sorted_by_age_strict _ Hnd)) as Hs.
    destruct (decide (i < j)%nat).
    - pose proof (StronglySorted_lookup _ _ i j e1 e2 Hs ltac:(lia) H1 H2) as Hlt.
      unfold age_lt in Hlt. lia.
    - pose proof (StronglySorted_lookup _ _ j i e2 e1 Hs ltac:(lia) H2 H1) as Hlt.
      unfold age_lt in Hlt. lia. }
  apply (halves_not_strictly_dominated (age peak) (r0 :: rs) e1 e2);
    [by eapply list_elem_of_lookup_2..|].
  split; [done|]. split; [|done].
  destruct Hside as [[? ?]|[? ?]]; lia.
Qed.

(** ** C8: idempotence *)

Lemma filter_all {A} (P : A → Prop) `{!∀ x, Decision (P x)} (l : list A) :
  Forall P l → filter P l = l.
Proof.
  induction 1 as [|x l Hx Hl IH]; [done|]. by rewrite filter_cons_True, IH.
Qed.

Lemma filter_none {A} (P : A → Prop) `{!∀ x, Decision (P x)} (l : list A) :
  Forall (λ x, ¬ P x) l → filter P l = [].
Proof.
  induction 1 as [|x l Hx Hl IH]; [done|]. by rewrite filter_cons_False.
Qed.

Lemma tied_younger_front_again :
  compute_pareto_front
    [row "Ann" 20 110 "2025"; row "Cy" 20 100 "2025"; row "Bea" 30 100 "2025"]
  = Ret [row "Bea" 30 100 "2025"].
Proof. vm_compute. reflexivity. Qed.

(** C8, as stated, fails on [tied_younger_pool]: in the front Cy (20, 100)
    comes before Bea (30, 100), so the second run takes Cy as the peak, and its
    scan from the oldest record keeps Bea only. *)
Lemma front_idempotent_fails : ¬ front_idempotent tied_younger_pool.
Proof.
  intros (fr & fr2 & Hfr & Hfr2 & Hsame).
  rewrite tied_younger_front in Hfr. injection Hfr as <-.
  rewrite tied_younger_front_again in Hfr2. injection Hfr2 as <-.
  assert (row "Ann" 20 110 "2025" ∈ [row "Bea" 30 100 "2025"]) as Hin
    by (apply Hsame, elem_of_cons; by left).
  apply list_elem_of_singleton in Hin. discriminate Hin.
Qed.

(** Re-running the engine on a list that already has the shape of a front
    whose first older-side entry is strictly faster than the younger side. *)
Lemma compute_pareto_front_fixed (ys os : list runner) (o : runner) :
  StronglySorted toward_peak ys →
  StronglySorted away_from_peak (o :: os) →
  Forall (λ y, age y < age o ∧ (time_seconds o < time_seconds y)%Q) ys →
  compute_pareto_front (ys ++ o :: os) = Ret (ys ++ o :: os).
Proof.
  intros Hys Hos Hyo.
  assert (StronglySorted age_le (ys ++ o :: os)) as Hsorted.
  { apply StronglySorted_app_2.
    - intros y z Hy Hz. rewrite Forall_forall in Hyo. destruct (Hyo y Hy) as [Hage _].
      apply elem_of_cons in Hz as [->|Hz]; [unfold age_le; lia|].
      apply StronglySorted_inv in Hos as [_ Hos]. rewrite Forall_forall in Hos.
      destruct (Hos z Hz). unfold age_le. lia.
    - eapply StronglySorted_impl; [|exact Hys]. by intros ? ? _ _ [? _].
    - eapply StronglySorted_impl; [|exact Hos]. by intros ? ? _ _ [? _]. }
  destruct (ys ++ o :: os) as [|r0 rs] eqn:Hpool; [by destruct ys|].
  destruct (compute_pareto_front_cons r0 rs) as (peak & Hmin & Hfirst & Hfr).
  rewrite Hfr. f_equal. rewrite <- Hpool in *. clear Hpool Hfr Hmin r0 rs.
  assert (peak = o) as ->.
  { pose proof (first_min_elem_of _ _ _ _ Hfirst) as Hin.
    assert (time_seconds peak <= time_seconds o)%Q as Hle.
    { apply (first_min_time_le _ _ _ Hfirst), elem_of_app. right. by apply elem_of_cons; left. }
    apply elem_of_app in Hin as [Hin|Hin].
    - rewrite Forall_forall in Hyo. destruct (Hyo _ Hin). lra.
    - apply elem_of_cons in Hin as [->|Hin]; [done|].
      apply StronglySorted_inv in Hos as [_ Hos]. rewrite Forall_forall in Hos.
      destruct (Hos _ Hin). lra. }
  assert (Forall (λ r, age r < age o) ys) as HY
    by (eapply Forall_impl; [exact Hyo|]; by intros ? [? _]).
  assert (Forall (λ r, age r >= age o) (o :: os)) as HO.
  { constructor; [lia|]. apply StronglySorted_inv in Hos as [_ Hos].
    eapply Forall_impl; [exact Hos|]. intros z [? _]. lia. }
  unfold younger_front, older_front. rewrite (sorted_by_age_id _ Hsorted), !filter_app.
  rewrite (filter_all _ ys HY), (filter_none _ (o :: os)).
  2: { eapply Forall_impl; [exact HO|]. simpl. intros; lia. }
  rewrite (filter_none _ ys), (filter_all _ (o :: os) HO).
  2: { eapply Forall_impl; [exact HY|]. simpl. intros; lia. }
  rewrite app_nil_r. simpl "++". f_equal.
  - apply scan_id; [|by apply Forall_true].
    eapply StronglySorted_impl; [|exact Hys]. by intros ? ? _ _ [_ ?].
  - rewrite scan_id; [apply reverse_involutive| |by apply Forall_true].
    eapply StronglySorted_impl; [|apply StronglySorted_reverse, Hos].
    by intros ? ? _ _ [_ ?].
Qed.

(** C8, amended: when no record younger than the peak ties the minimum time,
    the engine returns its own output unchanged, as a list. *)
Theorem front_idempotent_without_younger_tie (rs : list runner) :
  no_younger_tie rs →
  ∃ fr, compute_pareto_front rs = Ret fr ∧ compute_pareto_front fr = Ret fr.
Proof.
  intros Htie. destruct rs as [|r0 rs]; [by exists []|].
  destruct (compute_pareto_front_cons r0 rs) as (peak & Hmin & Hfirst & Hfr).
  set (pool := r0 :: rs) in *.
  eexists. split; [exact Hfr|].
  pose proof (first_min_elem_of _ _ _ _ Hfirst) as Hpeak.
  pose proof (λ z, first_min_time_le _ _ z Hfirst) as Hle.
  destruct (older_front_head (age peak) pool peak Hpeak ltac:(lia)) as (o & os & Heq & Ho).
  pose proof (older_front_sorted (age peak) pool) as Hos.
  assert (age peak ≤ age o) as Hage.
  { apply (older_front_elem_of (age peak) pool). rewrite Heq. by apply elem_of_cons; left. }
  rewrite Heq in Hos |- *.
  apply compute_pareto_front_fixed; [apply younger_front_sorted|done|].
  apply Forall_forall. intros y [Hy Hay]%younger_front_elem_of.
  split; [lia|]. specialize (Htie peak y Hmin Hy Hay).
  specialize (Ho peak Hpeak ltac:(lia)). specialize (Hle y Hy).
  destruct (Qlt_le_dec (time_seconds o) (time_seconds y)) as [|Hge]; [done|].
  destruct Htie. apply Qle_antisym; [lra|done].
Qed.

Lemma front_idempotent_witness :
  ∃ fr, compute_pareto_front sample_pool = Ret fr ∧ compute_pareto_front fr = Ret fr.
Proof.
  apply (front_idempotent_without_younger_tie sample_pool).
  intros peak z Hmin Hz Hage. vm_compute in Hmin. injection Hmin as <-.
  members Hz; vm_compute; discriminate.
Defined.

(** ** C4: empty input *)

Lemma count_blocking_runners_empty r : count_blocking_runners r [] = Raise ValueError.
Proof. reflexivity. Qed.

(** C4, as stated, fails: [count_blocking_runners] starts with
    [min(all_runners_same_gender, ...)], which raises [ValueError] on an empty
    pool. *)
Lemma empty_input_is_neutral_fails : ¬ empty_input_is_neutral.
Proof.
  intros (_ & _ & _ & Hcount).
  destruct (Hcount (row "Ann" 20 100 "2025")) as [n Hn].
  rewrite count_blocking_runners_empty in Hn. discriminate Hn.
Qed.

Lemma count_blocking_runners_returns r r0 pool :
  ∃ n, count_blocking_runners r (r0 :: pool) = Ret n.
Proof.
  unfold count_blocking_runners.
  destruct (py_min_time r0 pool) as (peak & -> & _). simpl.
  repeat case_decide; eauto.
Qed.

(** C4, amended: the age reducer and the Pareto engine return the empty list
    on an empty pool, and [get_pareto_time_at_age] returns no value on an
    empty front (so the distance is no value either), without raising;
    [count_blocking_runners], which the program
    applies only to a record and the pool it is taken from, returns a count
    without raising on every non-empty pool. *)
Theorem empty_input_results (a : Z) (r r0 : runner) (pool : list runner) :
  get_fastest_at_each_age [] = [] ∧
  compute_pareto_front [] = Ret [] ∧
  get_pareto_time_at_age a [] = Ret None ∧
  distance_to_pareto r [] = Ret None ∧
  ∃ n, count_blocking_runners r (r0 :: pool) = Ret n.
Proof.
  do 4 (split; [reflexivity|]). apply count_blocking_runners_returns.
Qed.

(** ** C6: blocking runners *)

Lemma foldl_count {A} (P : A → Prop) `{!∀ x, Decision (P x)} (l : list A) : ∀ n,
  foldl (λ c x, if decide (P x) then S c else c) n l = (n + length (filter P l))%nat.
Proof.
  induction l as [|x l IH]; intros n; simpl; [lia|].
  rewrite IH, filter_cons. case_decide; simpl; lia.
Qed.

Lemma sum_list_ones {A} (l : list A) : sum_list ((λ _, 1%nat) <$> l) = length l.
Proof. induction l; simpl; [done|]. by f_equal. Qed.

(** C6: for a non-empty pool, with [peak] the first record of the pool with
    the smallest time, [count_blocking_runners] returns: below the peak age,
    the number of pool members no older and strictly faster; above it, the
    number of pool members no younger and strictly faster; at the peak age,
    0 when the record's time equals the peak's, else the number of strictly
    faster pool members of the same age. *)
Theorem count_blocking_runners_spec (r : runner) (pool : list runner) :
  pool ≠ [] →
  ∃ peak,
    first_min Qlt time_seconds pool peak ∧
    (age r < age peak →
     count_blocking_runners r pool =
       Ret (length (filter (λ o, age o ≤ age r ∧ (time_seconds o < time_seconds r)%Q) pool))) ∧
    (age peak < age r →
     count_blocking_runners r pool =
       Ret (length (filter (λ o, age r ≤ age o ∧ (time_seconds o < time_seconds r)%Q) pool))) ∧
    (age r = age peak → (time_seconds r == time_seconds peak)%Q →
     count_blocking_runners r pool = Ret O) ∧
    (age r = age peak → ¬ (time_seconds r == time_seconds peak)%Q →
     count_blocking_runners r pool =
       Ret (length (filter (λ o, age o = age r ∧ (time_seconds o < time_seconds r)%Q) pool))).
Proof.
  intros Hne. destruct pool as [|r0 pool]; [done|].
  destruct (py_min_time r0 pool) as (peak & Hmin & Hfirst).
  exists peak. split; [done|].
  unfold count_blocking_runners. rewrite Hmin.
  unfold mbind, py_bind. cbv beta iota. set (all := r0 :: pool) in *.
  repeat split.
  - intros Hlt. rewrite (decide_True (P := age r < age peak)) by done.
    by rewrite (foldl_count (λ o, age o ≤ age r ∧ (time_seconds o < time_seconds r)%Q)).
  - intros Hgt. rewrite (decide_False (P := age r < age peak)) by lia.
    rewrite (decide_True (P := age r > age peak)) by lia.
    rewrite (foldl_count (λ o, age o >= age r ∧ (time_seconds o < time_seconds r)%Q)).
    simpl. do 2 f_equal. apply list_filter_iff.
    intros o. split; intros [? ?]; (split; [lia|done]).
  - intros Heq Ht. rewrite (decide_False (P := age r < age peak)) by lia.
    rewrite (decide_False (P := age r > age peak)) by lia.
    by rewrite (decide_True (P := (time_seconds r == time_seconds peak)%Q)).
  - intros Heq Ht. rewrite (decide_False (P := age r < age peak)) by lia.
    rewrite (decide_False (P := age r > age peak)) by lia.
    rewrite (decide_False (P := (time_seconds r == time_seconds peak)%Q)) by done.
    by rewrite sum_list_ones.
Qed.

(** The blocking-count example: nobody blocks Cal (20, 1300) or Dee (25, 1250). *)
Example count_blocking_runners_example :
  count_blocking_runners (row "Cal" 20 1300 "2025") blocking_pool = Ret O ∧
  count_blocking_runners (row "Dee" 25 1250 "2025") blocking_pool = Ret O.
Proof. split; reflexivity. Qed.

Lemma count_blocking_runners_spec_witness :
  ∃ peak,
    first_min Qlt time_seconds blocking_pool peak ∧
    (age (row "Cal" 20 1300 "2025") < age peak →
     count_blocking_runners (row "Cal" 20 1300 "2025") blocking_pool =
       Ret (length (filter (λ o, age o ≤ age (row "Cal" 20 1300 "2025") ∧
              (time_seconds o < time_seconds (row "Cal" 20 1300 "2025"))%Q) blocking_pool))) ∧
    (age peak < age (row "Cal" 20 1300 "2025") →
     count_blocking_runners (row "Cal" 20 1300 "2025") blocking_pool =
       Ret (length (filter (λ o, age (row "Cal" 20 1300 "2025") ≤ age o ∧
              (time_seconds o < time_seconds (row "Cal" 20 1300 "2025"))%Q) blocking_pool))) ∧
    (age (row "Cal" 20 1300 "2025") = age peak →
     (time_seconds (row "Cal" 20 1300 "2025") == time_seconds peak)%Q →
     count_blocking_runners (row "Cal" 20 1300 "2025") blocking_pool = Ret O) ∧
    (age (row "Cal" 20 1300 "2025") = age peak →
     ¬ (time_seconds (row "Cal" 20 1300 "2025") == time_seconds peak)%Q →
     count_blocking_runners (row "Cal" 20 1300 "2025") blocking_pool =
       Ret (length (filter (λ o, age o = age (row "Cal" 20 1300 "2025") ∧
              (time_seconds o < time_seconds (row "Cal" 20 1300 "2025"))%Q) blocking_pool))).
Proof.
  apply (count_blocking_runners_spec (row "Cal" 20 1300 "2025") blocking_pool).
  discriminate.
Defined.

(** ** C5: front time at an age *)

Lemma exact_match_Some a fr t :
  exact_match a fr = Some t → ∃ p, p ∈ fr ∧ age p = a ∧ t = time_seconds p.
Proof.
  induction fr as [|p fr IH]; simpl; [done|]. case_decide as Hp.
  - intros [= <-]. exists p. split; [by apply elem_of_cons; left|done].
  - intros (q & Hq & ?)%IH. exists q. split; [by apply elem_of_cons; right|done].
Qed.

Lemma exact_match_None a fr : exact_match a fr = None → ∀ z, z ∈ fr → age z ≠ a.
Proof.
  induction fr as [|p fr IH]; simpl; intros Hm z Hz; [by apply elem_of_nil in Hz|].
  case_decide as Hp; [done|].
  apply elem_of_cons in Hz as [->|Hz]; [done|by apply IH].
Qed.

Lemma get_pareto_time_at_age_cases (a : Z) (fr : list runner) :
  ∃ res, get_pareto_time_at_age a fr = Ret res ∧ pareto_time_at a fr res.
Proof.
  unfold get_pareto_time_at_age.
  destruct fr as [|r0 fr]; [exists None; split; [done|by constructor]|].
  cbn [py_not].
  destruct (exact_match a (r0 :: fr)) as [t|] eqn:Hexact.
  { apply exact_match_Some in Hexact as (p & Hp & Hage & ->).
    eexists. split; [done|]. by apply time_at_exact. }
  pose proof (exact_match_None _ _ Hexact) as Hne.
  assert (∀ z, z ∈ r0 :: fr →
            z ∈ filter (λ p, age p < a) (r0 :: fr) ∨ z ∈ filter (λ p, age p > a) (r0 :: fr))
    as Hsides.
  { intros z Hz. specialize (Hne z Hz).
    destruct (decide (age z < a)); [left|right]; apply list_elem_of_filter; split;
      (done || lia). }
  destruct (filter (λ p, age p < a) (r0 :: fr)) as [|y0 ys] eqn:Hyounger;
    destruct (filter (λ p, age p > a) (r0 :: fr)) as [|o0 os] eqn:Holder;
    cbn [py_not andb].
  - destruct (Hsides r0) as [H|H]; [by apply elem_of_cons; left|..];
      by apply elem_of_nil in H.
  - destruct (py_min_age r0 fr) as (p & Hpm & Hp). rewrite Hpm.
    eexists. split; [done|]. apply time_at_youngest.
    + by eapply first_min_elem_of.
    + intros z Hz. destruct (Hsides z Hz) as [H|H]; [by apply elem_of_nil in H|].
      rewrite <- Holder in H. apply list_elem_of_filter in H as [H _]. lia.
    + intros z Hz. by eapply first_min_age_le.
  - destruct (py_max_age r0 fr) as (p & Hpm & Hp). rewrite Hpm.
    eexists. split; [done|]. apply time_at_oldest.
    + by eapply first_max_elem_of.
    + intros z Hz. destruct (Hsides z Hz) as [H|H]; [|by apply elem_of_nil in H].
      rewrite <- Hyounger in H. by apply list_elem_of_filter in H as [H _].
    + intros z Hz. by eapply first_max_age_ge.
  - destruct (py_max_age y0 ys) as (cy & Hcym & Hcy).
    destruct (py_min_age o0 os) as (co & Hcom & Hco). rewrite Hcym, Hcom.
    rewrite <- Hyounger in Hcy. rewrite <- Holder in Hco.
    pose proof (first_max_elem_of _ _ _ _ Hcy) as Hcyin.
    pose proof (first_min_elem_of _ _ _ _ Hco) as Hcoin.
    apply list_elem_of_filter in Hcyin as [Hcya Hcyin].
    apply list_elem_of_filter in Hcoin as [Hcoa Hcoin].
    unfold mbind, py_bind, py_div. cbv beta iota.
    rewrite decide_False by lia.
    eexists. split; [done|]. apply time_at_between; try done; [lia|..].
    + intros z Hz Hza. apply (first_max_age_ge _ _ _ Hcy).
      by apply list_elem_of_filter.
    + intros z Hz Hza. apply (first_min_age_le _ _ _ Hco).
      apply list_elem_of_filter. split; [lia|done].
Qed.


(** Interpolation exactness and midpoint. *)
Example get_pareto_time_at_age_exact :
  get_pareto_time_at_age 30
    [row "Cal" 20 1200 "2025"; row "Dee" 30 1100 "2025"; row "Eli" 40 1300 "2025"]
  = Ret (Some (inject_Z 1100)).
Proof. reflexivity. Qed.

Example get_pareto_time_at_age_midpoint :
  ∃ t, get_pareto_time_at_age 30 [row "Cal" 20 1200 "2025"; row "Eli" 40 1400 "2025"]
       = Ret (Some t) ∧ (t == inject_Z 1300)%Q.
Proof. eexists. split; [reflexivity|]. vm_compute. reflexivity. Qed.

(** ** C7: age reducer *)

Module PyDictFacts.
Import PyDict.

Lemma get_None {V} k (d : t V) : get k d = None → k ∉ keys d.
Proof.
  induction d as [|[k' v] d IH]; simpl; intros Hget; [apply not_elem_of_nil|].
  case_decide as Hk; [done|]. apply not_elem_of_cons. split; [done|by apply IH].
Qed.

Lemma get_Some {V} k (d : t V) v :
  get k d = Some v → ∃ d1 d2, d = d1 ++ (k, v) :: d2 ∧ k ∉ keys d1.
Proof.
  induction d as [|[k' v'] d IH]; simpl; [done|]. case_decide as Hk.
  - intros [= ->]. subst k'. exists [], d. split; [done|apply not_elem_of_nil].
  - intros (d1 & d2 & -> & Hnotin)%IH. exists ((k', v') :: d1), d2.
    split; [done|]. simpl. apply not_elem_of_cons. by split.
Qed.

Lemma set_fresh {V} k v (d : t V) : k ∉ keys d → set k v d = d ++ [(k, v)].
Proof.
  induction d as [|[k' v'] d IH]; simpl; [done|].
  intros [Hne Hnotin]%not_elem_of_cons. rewrite decide_False by done.
  by rewrite IH.
Qed.

Lemma set_present {V} k v v0 (d1 d2 : t V) :
  k ∉ keys d1 → set k v (d1 ++ (k, v0) :: d2) = d1 ++ (k, v) :: d2.
Proof.
  induction d1 as [|[k' v'] d1 IH]; simpl.
  - intros _. by rewrite decide_True.
  - intros [Hne Hnotin]%not_elem_of_cons. rewrite decide_False by done.
    by rewrite IH.
Qed.

Lemma elem_of_keys {V} k (v : V) (d : t V) : (k, v) ∈ d → k ∈ keys d.
Proof. intros H. by apply (list_elem_of_fmap_2 fst) in H. Qed.
End PyDictFacts.

Lemma first_min_snoc_keep (l : list runner) (m x : runner) :
  first_min Qlt time_seconds l m → ¬ (time_seconds x < time_seconds m)%Q →
  first_min Qlt time_seconds (l ++ [x]) m.
Proof.
  intros (l1 & l2 & -> & H1 & H2) Hx. exists l1, (l2 ++ [x]).
  split; [by rewrite <- app_assoc|]. split; [done|].
  apply Forall_app. split; [done|]. by constructor.
Qed.

Lemma first_min_snoc_replace (l : list runner) (m x : runner) :
  first_min Qlt time_seconds l m → (time_seconds x < time_seconds m)%Q →
  first_min Qlt time_seconds (l ++ [x]) x.
Proof.
  intros Hm Hx. exists l, []. split; [done|]. split; [|constructor].
  apply Forall_forall. intros y Hy.
  pose proof (first_min_time_le _ _ y Hm Hy). lra.
Qed.

Lemma age_groups_step_inv age_groups seen r :
  age_groups_inv age_groups seen →
  age_groups_inv (age_groups_step age_groups r) (seen ++ [r]).
Proof.
  intros [Hnd Hent Hcov]. unfold age_groups_step.
  assert (∀ v, age v ≠ age r → fastest_of_age seen v → fastest_of_age (seen ++ [r]) v)
    as Hother.
  { intros v Hne Hv. unfold fastest_of_age in *.
    rewrite filter_app, (filter_cons_False _ r) by done. by rewrite app_nil_r. }
  destruct (PyDict.get (age r) age_groups) as [cur|] eqn:Hget.
  - apply PyDictFacts.get_Some in Hget as (d1 & d2 & -> & Hnotin).
    destruct (Hent (age r) cur) as [Hcur_age Hcur];
      [apply elem_of_app; right; by apply elem_of_cons; left|].
    assert (∀ x, (x = r ∨ x = cur) →
              first_min Qlt time_seconds (filter (λ r0, age r0 = age r) seen ++ [r]) x →
              fastest_of_age (seen ++ [r]) x) as Hsame.
    { intros x Hx Hfm. unfold fastest_of_age.
      replace (age x) with (age r) by (by destruct Hx as [->| ->]).
      by rewrite filter_app, (filter_cons_True _ r) by done. }
    unfold fastest_of_age in Hcur. rewrite Hcur_age in Hcur.
    assert (∀ k v, (k, v) ∈ d1 ++ d2 → age v ≠ age r ∧ (k, v) ∈ d1 ++ (age r, cur) :: d2)
      as Hrest.
    { intros k v Hin. split.
      - unfold PyDict.keys in Hnd. rewrite fmap_app, fmap_cons in Hnd. simpl in Hnd.
        apply NoDup_app in Hnd as (_ & Hdisj & [Hnot2 _]%NoDup_cons).
        destruct (Hent k v) as [Hk _].
        { apply elem_of_app in Hin as [?|?]; apply elem_of_app; [by left|right].
          by apply elem_of_cons; right. }
        intros Heq. rewrite Hk in Heq. subst k.
        apply elem_of_app in Hin as [Hin|Hin].
        + destruct Hnotin. rewrite <- Heq. by eapply PyDictFacts.elem_of_keys.
        + destruct Hnot2. rewrite <- Heq. by eapply (PyDictFacts.elem_of_keys _ v d2).
      - apply elem_of_app in Hin as [?|?]; apply elem_of_app; [by left|right].
        by apply elem_of_cons; right. }
    case_decide as Hlt.
    + rewrite PyDictFacts.set_present by done. split.
      * unfold PyDict.keys in *. by rewrite fmap_app, fmap_cons in Hnd |- *.
      * intros k v Hin. apply elem_of_app in Hin as [Hin|Hin];
          [|apply elem_of_cons in Hin as [[= -> ->]|Hin]].
        -- destruct (Hrest k v) as [Hne Hin']; [apply elem_of_app; by left|].
           destruct (Hent k v Hin'). split; [done|]. by apply Hother.
        -- split; [done|]. apply Hsame; [by left|].
           by eapply first_min_snoc_replace.
        -- destruct (Hrest k v) as [Hne Hin']; [apply elem_of_app; by right|].
           destruct (Hent k v Hin'). split; [done|]. by apply Hother.
      * intros x Hx. unfold PyDict.keys in *. rewrite fmap_app, fmap_cons in Hcov |- *.
        simpl in *. apply elem_of_app in Hx as [Hx|Hx]; [by apply Hcov|].
        apply list_elem_of_singleton in Hx as ->.
        apply elem_of_app. right. by apply elem_of_cons; left.
    + split; [done| |].
      * intros k v Hin. destruct (Hent k v Hin) as [Hk Hv]. split; [done|].
        destruct (decide (age v = age r)) as [Heq|Hne]; [|by apply Hother].
        assert (v = cur) as ->.
        { apply elem_of_app in Hin as [Hin|Hin];
            [|apply elem_of_cons in Hin as [[= _ ->]|Hin]; [done|]].
          - destruct (Hrest k v) as [? _]; [apply elem_of_app; by left|done].
          - destruct (Hrest k v) as [? _]; [apply elem_of_app; by right|done]. }
        apply Hsame; [by right|]. by apply first_min_snoc_keep.
      * intros x Hx. apply elem_of_app in Hx as [Hx|Hx]; [by apply Hcov|].
        apply list_elem_of_singleton in Hx as ->. unfold PyDict.keys.
        rewrite fmap_app, fmap_cons. apply elem_of_app. right. by apply elem_of_cons; left.
  - apply PyDictFacts.get_None in Hget. rewrite PyDictFacts.set_fresh by done. split.
    + unfold PyDict.keys in *. rewrite fmap_app. apply NoDup_app. split; [done|].
      split; [|apply NoDup_singleton].
      intros k Hk Hk'. apply list_elem_of_singleton in Hk'. by subst k.
    + intros k v Hin. apply elem_of_app in Hin as [Hin|Hin].
      * destruct (Hent k v Hin) as [Hk Hv]. split; [done|]. apply Hother; [|done].
        intros Heq. destruct Hget. rewrite <- Heq, Hk. by eapply PyDictFacts.elem_of_keys.
      * apply list_elem_of_singleton in Hin as [= -> ->]. split; [done|].
        unfold fastest_of_age. rewrite filter_app, (filter_cons_True _ r) by done.
        rewrite (filter_none _ seen).
        { exists [], []. split; [done|]. split; constructor. }
        apply Forall_forall. intros x Hx Heq. destruct Hget. rewrite <- Heq. by apply Hcov.
    + intros x Hx. unfold PyDict.keys. rewrite fmap_app. apply elem_of_app.
      apply elem_of_app in Hx as [Hx|Hx]; [left; by apply Hcov|right].
      apply list_elem_of_singleton in Hx as ->. by apply elem_of_cons; left.
Qed.

Lemma age_groups_loop_inv runners : ∀ age_groups seen,
  age_groups_inv age_groups seen →
  age_groups_inv (foldl age_groups_step age_groups runners) (seen ++ runners).
Proof.
  induction runners as [|r runners IH]; intros d seen Hinv; simpl.
  - by rewrite app_nil_r.
  - replace (seen ++ r :: runners) with ((seen ++ [r]) ++ runners)
      by (by rewrite <- app_assoc).
    by apply IH, age_groups_step_inv.
Qed.

Lemma age_groups_values_ages (d : PyDict.t runner) :
  (∀ k v, (k, v) ∈ d → age v = k) → age <$> PyDict.values d = PyDict.keys d.
Proof.
  induction d as [|[k v] d IH]; intros Hk; [done|].
  unfold PyDict.values, PyDict.keys in *. rewrite !fmap_cons. simpl. f_equal.
  - apply Hk. by apply elem_of_cons; left.
  - apply IH. intros k' v' Hin. apply Hk. by apply elem_of_cons; right.
Qed.

Lemma get_fastest_at_each_age_inv runners :
  ∃ age_groups, get_fastest_at_each_age runners = PyDict.values age_groups ∧
    age_groups_inv age_groups runners.
Proof.
  exists (foldl age_groups_step [] runners). split.
  - by destruct runners.
  - apply (age_groups_loop_inv runners [] []). split.
    + constructor.
    + intros k v Hin. by apply elem_of_nil in Hin.
    + intros r Hr. by apply elem_of_nil in Hr.
Qed.

(** C7: the age reducer returns, for each age present in the pool, exactly one
    record; that record is a pool record of that age, no slower than every
    pool record of that age, and every record of that age met before it in the
    pool is strictly slower (first wins among ties); the empty pool yields the
    empty list. *)
Theorem get_fastest_at_each_age_spec (pool : list runner) :
  NoDup (age <$> get_fastest_at_each_age pool) ∧
  (∀ r, r ∈ pool → ∃ v, v ∈ get_fastest_at_each_age pool ∧ age v = age r) ∧
  (∀ v, v ∈ get_fastest_at_each_age pool →
     v ∈ pool ∧
     (∀ r, r ∈ pool → age r = age v → (time_seconds v <= time_seconds r)%Q) ∧
     ∃ before after,
       filter (λ r, age r = age v) pool = before ++ v :: after ∧
       Forall (λ r, (time_seconds v < time_seconds r)%Q) before) ∧
  get_fastest_at_each_age [] = [].
Proof.
  destruct (get_fastest_at_each_age_inv pool) as (d & -> & [Hnd Hent Hcov]).
  assert (∀ v, v ∈ PyDict.values d → ∃ k, (k, v) ∈ d) as Hval.
  { intros v ([k v'] & -> & Hin)%list_elem_of_fmap. by exists k. }
  split; [|split; [|split; [|done]]].
  - rewrite age_groups_values_ages; [done|]. intros k v Hin. by destruct (Hent k v Hin).
  - intros r Hr. specialize (Hcov r Hr).
    apply list_elem_of_fmap in Hcov as ([k v] & Hk & Hin). simpl in Hk. subst k.
    exists v. split; [by apply (list_elem_of_fmap_2 snd _ (age r, v))|].
    by destruct (Hent _ _ Hin).
  - intros v [k Hin]%Hval. destruct (Hent k v Hin) as [_ Hv].
    unfold fastest_of_age in Hv. split; [|split].
    + apply first_min_elem_of in Hv. by apply list_elem_of_filter in Hv as [_ ?].
    + intros r Hr Hage. apply (first_min_time_le _ _ r Hv).
      by apply list_elem_of_filter.
    + destruct Hv as (l1 & l2 & Heq & H1 & _). by exists l1, l2.
Qed.

Example get_fastest_at_each_age_example :
  get_fastest_at_each_age
    [row "Cal" 20 1300 "2023"; row "Dee" 25 1250 "2023"; row "Eli" 20 1200 "2024";
     row "Fay" 25 1250 "2025"]
  = [row "Eli" 20 1200 "2024"; row "Dee" 25 1250 "2023"].
Proof. reflexivity. Qed.

(** ** C9: display names *)

Lemma name_year_counts_step_eq m r :
  name_year_counts_step m r =
    Ret (<[name r := default [] (m !! name r) ++ [year r]]> m).
Proof.
  unfold name_year_counts_step, py_getitem. case_decide as Hsome.
  - destruct Hsome as [ys Hys]. by rewrite Hys.
  - apply eq_None_not_Some in Hsome. rewrite Hsome, lookup_insert_eq. simpl.
    by rewrite insert_insert_eq.
Qed.

Lemma py_for_name_year_counts rs : ∀ m,
  py_for name_year_counts_step m rs =
    Ret (foldl (λ m r, <[name r := default [] (m !! name r) ++ [year r]]> m) m rs).
Proof.
  induction rs as [|r rs IH]; intros m; simpl; [done|].
  rewrite name_year_counts_step_eq. simpl. apply IH.
Qed.

Lemma name_year_counts_lookup rs : ∀ (m : gmap string (list string)) n,
  foldl (λ m r, <[name r := default [] (m !! name r) ++ [year r]]> m) m rs !! n =
    if decide (years_of n rs = []) then m !! n
    else Some (default [] (m !! n) ++ years_of n rs).
Proof.
  induction rs as [|r rs IH]; intros m n; simpl; [done|].
  rewrite IH. unfold years_of. rewrite filter_cons.
  destruct (decide (name r = n)) as [<-|Hne].
  - rewrite fmap_cons, lookup_insert_eq. simpl.
    case_decide as Hnil.
    + by rewrite Hnil.
    + by rewrite <- app_assoc.
  - by rewrite lookup_insert_ne.
Qed.

Lemma years_of_elem_of y n rs :
  y ∈ years_of n rs ↔ ∃ r, r ∈ rs ∧ name r = n ∧ year r = y.
Proof.
  unfold years_of. rewrite list_elem_of_fmap. split.
  - intros (r & -> & [Hn Hr]%list_elem_of_filter). by exists r.
  - intros (r & Hr & Hn & <-). exists r. split; [done|]. by apply list_elem_of_filter.
Qed.

Lemma distinct_years_gt_1 ys :
  (1 < distinct_years ys)%nat ↔ ∃ y1 y2, y1 ∈ ys ∧ y2 ∈ ys ∧ y1 ≠ y2.
Proof.
  unfold distinct_years. split.
  - intros Hsize.
    destruct (size_pos_elem_of (list_to_set ys : gset string)) as [y1 Hy1]; [lia|].
    destruct (size_pos_elem_of ((list_to_set ys : gset string) ∖ {[y1]})) as [y2 Hy2].
    { rewrite size_difference by set_solver. rewrite size_singleton. lia. }
    apply elem_of_difference in Hy2 as [Hy2 Hne%not_elem_of_singleton].
    exists y1, y2. rewrite <- !(elem_of_list_to_set (C := gset string)). auto.
  - intros (y1 & y2 & H1 & H2 & Hne).
    rewrite <- (elem_of_list_to_set (C := gset string)) in H1, H2.
    assert (size ({[y1]} ∪ {[y2]} : gset string) = 2%nat) as Htwo.
    { rewrite size_union by set_solver. by rewrite !size_singleton. }
    assert (({[y1]} ∪ {[y2]} : gset string) ⊆ list_to_set ys) as Hsub.
    { intros y [Hy|Hy]%elem_of_union; apply elem_of_singleton in Hy; by subst y. }
    apply subseteq_size in Hsub. lia.
Qed.

Lemma spans_years_distinct all n :
  spans_years all n ↔ (1 < distinct_years (years_of n all))%nat.
Proof.
  rewrite distinct_years_gt_1. split.
  - intros (r1 & r2 & H1 & H2 & Hn1 & Hn2 & Hne).
    exists (year r1), (year r2). rewrite !years_of_elem_of. eauto 10.
  - intros (y1 & y2 & (r1 & ? & ? & <-)%years_of_elem_of
                     & (r2 & ? & ? & <-)%years_of_elem_of & Hne).
    by exists r1, r2.
Qed.

Lemma mapM_py_ret {A B} (f : A → py B) (g : A → B) (l : list A) :
  (∀ x, x ∈ l → f x = Ret (g x)) → mapM f l = Ret (g <$> l).
Proof.
  induction l as [|x l IH]; intros Hf; simpl; [done|].
  rewrite Hf by (by apply elem_of_cons; left). simpl.
  rewrite IH; [done|]. intros y Hy. apply Hf. by apply elem_of_cons; right.
Qed.

Lemma append_ne s t : t ≠ "" → s +:+ t ≠ s.
Proof.
  intros Ht. induction s as [|c s IH]; simpl; [done|]. intros [= H]. by apply IH.
Qed.

Lemma add_display_names_eq all :
  add_display_names all = Ret ((λ r, (r, shown_name all r)) <$> all).
Proof.
  unfold add_display_names. rewrite py_for_name_year_counts. simpl.
  apply mapM_py_ret. intros r Hr.
  unfold display_name, py_getitem. rewrite name_year_counts_lookup, lookup_empty.
  rewrite decide_False.
  2: { intros Hnil. assert (year r ∈ years_of (name r) all) as Hin
         by (apply years_of_elem_of; by exists r).
       rewrite Hnil in Hin. by apply elem_of_nil in Hin. }
  simpl. unfold shown_name. by case_decide.
Qed.

(** C9: every record of the all-time view gets a display name; it is the raw
    name followed by [" (year)"] exactly when the records sharing that raw
    name span more than one distinct year, and the raw name otherwise. *)
Theorem display_names_spec (all_results : list runner) :
  ∃ shown,
    add_display_names all_results = Ret shown ∧
    shown.*1 = all_results ∧
    ∀ r d, (r, d) ∈ shown →
      (d = name r +:+ " (" +:+ year r +:+ ")" ↔ spans_years all_results (name r)) ∧
      (¬ spans_years all_results (name r) → d = name r).
Proof.
  eexists. split; [apply add_display_names_eq|]. split.
  - rewrite <- list_fmap_compose. apply list_fmap_id.
  - intros r d (r' & [= -> ->] & Hr)%list_elem_of_fmap.
    rewrite spans_years_distinct. unfold shown_name. case_decide as Hspan.
    + split; [done|]. intros Hn. by destruct Hn.
    + split; [|done]. split; [|done]. intros Heq. symmetry in Heq.
      by apply append_ne in Heq.
Qed.

(** A name present only in 2024 is unchanged; a name present in 2023 and 2025
    gets its year appended. *)
Example display_names_example :
  add_display_names
    [row "Ann" 20 1300 "2023"; row "Bea" 25 1250 "2024"; row "Ann" 22 1200 "2025"]
  = Ret [(row "Ann" 20 1300 "2023", "Ann (2023)"); (row "Bea" 25 1250 "2024", "Bea");
         (row "Ann" 22 1200 "2025", "Ann (2025)")].
Proof. vm_compute. reflexivity. Qed.

(** ** C10: distance to the front *)

Lemma ratio_bounds (k d : Z) :
  0 < k → k < d → (0 < inject_Z k / inject_Z d ∧ inject_Z k / inject_Z d < 1)%Q.
Proof.
  intros Hk Hd.
  assert (0 < inject_Z k)%Q as HK by (rewrite (Zlt_Qlt 0 k) in Hk; exact Hk).
  assert (inject_Z k < inject_Z d)%Q as HD by (rewrite Zlt_Qlt in Hd; exact Hd).
  assert (0 < inject_Z d)%Q as HD0 by lra.
  split; [apply Qlt_shift_div_l; lra|apply Qlt_shift_div_r; lra].
Qed.

(** The interpolated time lies on the side of the younger entry when the
    older entry is no slower, and on the side of the older entry otherwise. *)
Lemma interpolation_le_younger (ty to : Q) (k d : Z) :
  (to <= ty)%Q → 0 < k → k < d →
  (ty + (to - ty) * inject_Z k / inject_Z d <= ty)%Q.
Proof.
  intros Ht Hk Hd. destruct (ratio_bounds k d Hk Hd) as [H0 H1].
  assert ((to - ty) * inject_Z k / inject_Z d == (to - ty) * (inject_Z k / inject_Z d))%Q
    as -> by (unfold Qdiv; ring).
  nra.
Qed.

Lemma interpolation_le_older (ty to : Q) (k d : Z) :
  (ty <= to)%Q → 0 < k → k < d →
  (ty + (to - ty) * inject_Z k / inject_Z d <= to)%Q.
Proof.
  intros Ht Hk Hd. destruct (ratio_bounds k d Hk Hd) as [H0 H1].
  assert ((to - ty) * inject_Z k / inject_Z d == (to - ty) * (inject_Z k / inject_Z d))%Q
    as -> by (unfold Qdiv; ring).
  nra.
Qed.

Lemma tied_peak_front :
  compute_pareto_front tied_peak_pool
  = Ret [row "Ann" 20 200 "2025"; row "Cy" 40 100 "2025"].
Proof. vm_compute. reflexivity. Qed.

(** 200 + (100 - 200) * 10 / 20, that is 150. *)
Lemma tied_peak_front_time :
  get_pareto_time_at_age 30 [row "Ann" 20 200 "2025"; row "Cy" 40 100 "2025"]
  = Ret (Some (inject_Z 200 + (inject_Z 100 - inject_Z 200) * inject_Z 10 / inject_Z 20)%Q).
Proof. reflexivity. Qed.

Lemma tied_peak_distance :
  ∃ d, distance_to_pareto (row "Bea" 30 100 "2025")
         [row "Ann" 20 200 "2025"; row "Cy" 40 100 "2025"] = Ret (Some d) ∧
       (d == inject_Z (-50))%Q.
Proof. eexists. split; [reflexivity|]. vm_compute. reflexivity. Qed.


Section distance.
Context (r0 : runner) (rs : list runner).
Let pool := r0 :: rs.
Context (peak : runner).
Hypothesis Hmin : py_min Qlt time_seconds pool = Ret peak.
Hypothesis Hfirst : first_min Qlt time_seconds pool peak.
Hypothesis Hnd : NoDup (age <$> pool).
Hypothesis Htie : no_older_tie pool.
Let fr := younger_front (age peak) pool ++ older_front (age peak) pool.

Lemma peak_in_pool : peak ∈ pool.
Proof. by eapply first_min_elem_of. Qed.

Lemma front_in_pool z : z ∈ fr → z ∈ pool.
Proof.
  intros [Hz|Hz]%elem_of_app.
  - by apply younger_front_elem_of in Hz as [? _].
  - by apply older_front_elem_of in Hz as [? _].
Qed.

Lemma peak_in_older_front : peak ∈ older_front (age peak) pool.
Proof.
  apply older_front_keeps; [apply peak_in_pool|lia|].
  intros z Hz Hage Ht.
  destruct (decide (age z = age peak)) as [Heq|Hne].
  - apply (NoDup_age_inj pool); [done|done|apply peak_in_pool|done].
  - destruct (Htie peak z Hmin Hz); [lia|].
    apply Qle_antisym; [done|]. by apply (first_min_time_le pool).
Qed.

Lemma peak_in_front : peak ∈ fr.
Proof. apply elem_of_app. right. apply peak_in_older_front. Qed.

Lemma front_younger z : z ∈ fr → age z < age peak → z ∈ younger_front (age peak) pool.
Proof.
  intros [Hz|Hz]%elem_of_app Hage; [done|].
  apply older_front_elem_of in Hz as [_ ?]. lia.
Qed.

Lemma front_older z : z ∈ fr → age peak ≤ age z → z ∈ older_front (age peak) pool.
Proof.
  intros [Hz|Hz]%elem_of_app Hage; [|done].
  apply younger_front_elem_of in Hz as [_ ?]. lia.
Qed.

(** On the younger half, an older entry is at least as fast. *)
Lemma younger_front_mono y1 y2 :
  y1 ∈ younger_front (age peak) pool → y2 ∈ younger_front (age peak) pool →
  age y1 ≤ age y2 → (time_seconds y2 <= time_seconds y1)%Q.
Proof.
  intros H1 H2 Hage.
  destruct (StronglySorted_elem_of _ _ y1 y2 (younger_front_sorted (age peak) pool) H1 H2)
    as [->|[[_ Hlt]|[Hage' _]]]; [lra|lra|].
  assert (y1 = y2) as ->; [|lra].
  apply (NoDup_age_inj pool); [done|..|lia].
  - by apply younger_front_elem_of in H1 as [? _].
  - by apply younger_front_elem_of in H2 as [? _].
Qed.

(** On the older half, a younger entry is at least as fast. *)
Lemma older_front_mono o1 o2 :
  o1 ∈ older_front (age peak) pool → o2 ∈ older_front (age peak) pool →
  age o1 ≤ age o2 → (time_seconds o1 <= time_seconds o2)%Q.
Proof.
  intros H1 H2 Hage.
  destruct (StronglySorted_elem_of _ _ o1 o2 (older_front_sorted (age peak) pool) H1 H2)
    as [->|[[_ Hlt]|[Hage' _]]]; [lra|lra|].
  assert (o1 = o2) as ->; [|lra].
  apply (NoDup_age_inj pool); [done|..|lia].
  - by apply older_front_elem_of in H1 as [? _].
  - by apply older_front_elem_of in H2 as [? _].
Qed.

(** The front time at the age of a pool record is defined and no larger
    than the record's time; it is the record's own time on the front. *)
Lemma front_time_le r :
  r ∈ pool →
  ∃ t, get_pareto_time_at_age (age r) fr = Ret (Some t) ∧
    (t <= time_seconds r)%Q ∧ (r ∈ fr → t = time_seconds r).
Proof.
  intros Hr.
  destruct (get_pareto_time_at_age_cases (age r) fr) as (res & Hget & Hres).
  rewrite Hget. pose proof peak_in_front as Hpeak.
  assert (∀ z, z ∈ fr → age z = age r → z = r) as Huniq.
  { intros z Hz Heq. apply (NoDup_age_inj pool); auto using front_in_pool. }
  inversion Hres as [He|p Hp Hpa|p Hp Hall|p Hp Hall|y o Hy Ho Hno Hbetween Hny Hno'];
    subst res.
  - rewrite He in Hpeak. by apply elem_of_nil in Hpeak.
  - rewrite (Huniq p Hp Hpa). exists (time_seconds r). split; [done|]. split; [lra|done].
  - exfalso. pose proof (Hall peak Hpeak) as Hlt.
    destruct (younger_front_cover (age peak) pool r Hr Hlt) as (y & Hy & Hage & _).
    assert (y ∈ fr) as Hyfr by (apply elem_of_app; by left).
    specialize (Hall y Hyfr). lia.
  - exfalso. pose proof (Hall peak Hpeak) as Hlt.
    destruct (older_front_cover (age peak) pool r Hr ltac:(lia)) as (o & Ho & Hage & _).
    assert (o ∈ fr) as Hofr by (apply elem_of_app; by right).
    specialize (Hall o Hofr). lia.
  - eexists. split; [done|]. split; [|intros Hin; by destruct (Hno r Hin)].
    destruct (Z.lt_trichotomy (age r) (age peak)) as [Hlt|[Heq|Hgt]].
    + (* younger side *)
      destruct (younger_front_cover (age peak) pool r Hr Hlt) as (y' & Hy' & Hage' & Ht').
      assert (y' ∈ fr) as Hy'fr by (apply elem_of_app; by left).
      assert (age y' ≤ age y) as Hyy'.
      { apply Hny; [done|]. pose proof (Hno y' Hy'fr). lia. }
      pose proof (front_younger y Hy ltac:(lia)) as HyY.
      pose proof (younger_front_mono y' y Hy' HyY Hyy') as Hty.
      assert (time_seconds o <= time_seconds y)%Q as Hto.
      { destruct (decide (age o < age peak)) as [Ho_lt|Ho_ge].
        - apply younger_front_mono; [done|by apply front_younger|lia].
        - assert (o = peak) as ->.
          { apply (NoDup_age_inj pool); [done|by apply front_in_pool|apply peak_in_pool|].
            pose proof (Hno' peak Hpeak Hlt). lia. }
          apply (first_min_time_le pool); [done|by apply front_in_pool]. }
      eapply Qle_trans; [apply interpolation_le_younger; [done|lia|lia]|]. lra.
    + (* at the peak age *)
      destruct (Hno peak Hpeak). done.
    + (* older side *)
      destruct (older_front_cover (age peak) pool r Hr ltac:(lia)) as (o' & Ho' & Hage' & Ht').
      assert (o' ∈ fr) as Ho'fr by (apply elem_of_app; by right).
      assert (age o ≤ age o') as Hoo'.
      { apply Hno'; [done|]. pose proof (Hno o' Ho'fr). lia. }
      pose proof (front_older o Ho ltac:(lia)) as HoO.
      pose proof (older_front_mono o o' HoO Ho' Hoo') as Hto.
      assert (age peak ≤ age y) as Hpy by (by apply Hny).
      pose proof (front_older y Hy Hpy) as HyO.
      pose proof (older_front_mono y o HyO HoO ltac:(lia)) as Hty.
      eapply Qle_trans; [apply interpolation_le_older; [done|lia|lia]|]. lra.
Qed.
End distance.



(** * Further properties of the code

    ** The engine selects input records *)

Lemma sublist_reverse {A} (l1 l2 : list A) :
  l1 `sublist_of` l2 → reverse l1 `sublist_of` reverse l2.
Proof.
  induction 1 as [|x l1 l2 _ IH|x l1 l2 _ IH]; [done|..]; rewrite ?reverse_cons.
  - by apply sublist_app.
  - rewrite <- (app_nil_r (reverse l1)). apply sublist_app; [done|apply sublist_nil_l].
Qed.

(** A list in age order is its records below an age followed by the others. *)
Lemma sorted_split_at p l :
  StronglySorted age_le l →
  l = filter (λ r, age r < p) l ++ filter (λ r, age r >= p) l.
Proof.
  induction 1 as [|x l Hl IH Hx]; [done|].
  rewrite !filter_cons. destruct (decide (age x < p)) as [Hlt|Hge].
  - rewrite decide_False by lia. simpl. by f_equal.
  - rewrite decide_True by lia.
    rewrite (filter_none (λ r, age r < p) l), (filter_all (λ r, age r >= p) l); [done|..].
    + eapply Forall_impl; [exact Hx|]. unfold age_le. simpl. intros; lia.
    + eapply Forall_impl; [exact Hx|]. unfold age_le. simpl. intros; lia.
Qed.

Lemma halves_sublist p rs :
  younger_front p rs ++ older_front p rs `sublist_of` sorted_by_age rs.
Proof.
  rewrite (sorted_split_at p (sorted_by_age rs)) at 1 by apply sorted_by_age_sorted.
  apply sublist_app; [apply scan_sublist|].
  unfold older_front.
  rewrite <- (reverse_involutive (filter (λ r, age r >= p) (sorted_by_age rs))) at 2.
  apply sublist_reverse, scan_sublist.
Qed.

(** X1: the front is a subsequence of the age-sorted input, which is a
    rearrangement of the input: the engine returns input records only, each at
    most as often as it occurs in the input, in age order. *)
Theorem front_is_selection (rs : list runner) :
  ∃ fr, compute_pareto_front rs = Ret fr ∧
    fr `sublist_of` sorted_by_age rs ∧
    sorted_by_age rs ≡ₚ rs ∧
    (∀ x, x ∈ fr → x ∈ rs) ∧
    (length fr ≤ length rs)%nat.
Proof.
  destruct rs as [|r0 rs]; [by exists []|].
  destruct (compute_pareto_front_cons r0 rs) as (peak & _ & _ & Hfr).
  eexists. split; [exact Hfr|].
  pose proof (halves_sublist (age peak) (r0 :: rs)) as Hsub.
  pose proof (sorted_by_age_perm (r0 :: rs)) as Hperm.
  split; [done|]. split; [done|]. split.
  - intros x Hx. rewrite <- Hperm. by eapply elem_of_sublist.
  - rewrite <- (Permutation_length Hperm). by apply sublist_length.
Qed.

(** ** Every record is matched on the front *)

(** X2: every input record is matched by a front record on its side of the peak
    age that is at least as far from the peak age and no slower (the record
    itself, when it is on the front). *)
Theorem front_covers_input (rs : list runner) :
  ∃ fr, compute_pareto_front rs = Ret fr ∧
    ∀ peak, py_min Qlt time_seconds rs = Ret peak →
    ∀ x, x ∈ rs → ∃ e, e ∈ fr ∧ dominated_by (age peak) x e.
Proof.
  destruct rs as [|r0 rs]; [exists []; split; [done|]; intros peak; discriminate|].
  destruct (compute_pareto_front_cons r0 rs) as (peak & Hmin & _ & Hfr).
  eexists. split; [exact Hfr|]. intros peak' Hmin' x Hx.
  rewrite Hmin in Hmin'. injection Hmin' as <-.
  destruct (decide (age x < age peak)) as [Hlt|Hge].
  - destruct (younger_front_cover (age peak) (r0 :: rs) x Hx Hlt) as (y & Hy & Hage & Ht).
    exists y. split; [apply elem_of_app; by left|].
    apply younger_front_elem_of in Hy as [_ Hya].
    split; [left; lia|]. split; [lia|done].
  - destruct (older_front_cover (age peak) (r0 :: rs) x Hx ltac:(lia)) as (o & Ho & Hage & Ht).
    exists o. split; [apply elem_of_app; by right|].
    split; [right; lia|]. split; [lia|done].
Qed.

(** ** The oldest record *)

(** X3: for a non-empty input the front ends with the last record of the
    age-sorted input, a record of the largest age: the front is never empty
    and always reaches the oldest age. *)
Theorem front_ends_with_oldest (rs : list runner) :
  rs ≠ [] →
  ∃ fr z, compute_pareto_front rs = Ret fr ∧
    last fr = Some z ∧ last (sorted_by_age rs) = Some z ∧
    ∀ x, x ∈ rs → age x ≤ age z.
Proof.
  intros Hne. destruct rs as [|r0 rs]; [done|]. clear Hne.
  destruct (compute_pareto_front_cons r0 rs) as (peak & _ & Hfirst & Hfr).
  set (pool := r0 :: rs) in *.
  pose proof (sorted_by_age_sorted pool) as Hsorted.
  pose proof (sorted_split_at (age peak) _ Hsorted) as Hsplit.
  assert (peak ∈ filter (λ r, age r >= age peak) (sorted_by_age pool)) as Hin.
  { apply list_elem_of_filter. split; [lia|].
    rewrite sorted_by_age_elem_of. by eapply first_min_elem_of. }
  destruct (last (filter (λ r, age r >= age peak) (sorted_by_age pool))) as [z|] eqn:Hlast.
  2: { apply last_None in Hlast. rewrite Hlast in Hin. by apply elem_of_nil in Hin. }
  exists (younger_front (age peak) pool ++ older_front (age peak) pool), z.
  split; [done|]. pose proof Hlast as Hlast'.
  apply last_Some in Hlast' as [l' Hl'].
  assert (last (sorted_by_age pool) = Some z) as Hz.
  { rewrite Hsplit, Hl', app_assoc. apply last_snoc. }
  split; [|split; [done|]].
  - unfold older_front. rewrite Hl', reverse_snoc. simpl.
    rewrite reverse_cons, app_assoc. apply last_snoc.
  - intros x Hx. apply last_Some in Hz as [l Hl]. rewrite Hl in Hsorted.
    rewrite <- sorted_by_age_elem_of, Hl in Hx.
    apply elem_of_app in Hx as [Hx|Hx]; [|by apply list_elem_of_singleton in Hx as ->].
    apply (StronglySorted_app_1_elem_of age_le l [z]); [done|done|].
    by apply list_elem_of_singleton.
Qed.

Lemma front_ends_with_oldest_witness :
  ∃ fr z, compute_pareto_front sample_pool = Ret fr ∧
    last fr = Some z ∧ last (sorted_by_age sample_pool) = Some z ∧
    ∀ x, x ∈ sample_pool → age x ≤ age z.
Proof. apply (front_ends_with_oldest sample_pool). discriminate. Defined.

(** ** Input order *)

Lemma sorted_by_age_perm_eq rs1 rs2 :
  rs1 ≡ₚ rs2 → NoDup (age <$> rs1) → sorted_by_age rs1 = sorted_by_age rs2.
Proof.
  intros Hperm Hnd.
  apply (StronglySorted_unique_strong age_le); [|apply sorted_by_age_sorted..|].
  - intros x y Hx Hy Hxy Hyx. rewrite sorted_by_age_elem_of in Hx, Hy.
    rewrite <- Hperm in Hy. apply (NoDup_age_inj rs1); [done..|].
    unfold age_le in *. lia.
  - by rewrite !sorted_by_age_perm.
Qed.

(** X5: when no two records share an age and a single record has the smallest
    time, the front does not depend on the order of the input. *)
Theorem front_order_independent (rs1 rs2 : list runner) :
  rs1 ≡ₚ rs2 → NoDup (age <$> rs1) → unique_fastest rs1 →
  compute_pareto_front rs1 = compute_pareto_front rs2.
Proof.
  intros Hperm Hnd Huniq.
  destruct rs1 as [|r1 rs1]; [by apply Permutation_nil in Hperm as ->|].
  destruct rs2 as [|r2 rs2]; [by apply Permutation_nil_r in Hperm|].
  destruct (compute_pareto_front_cons r1 rs1) as (p1 & _ & Hp1 & ->).
  destruct (compute_pareto_front_cons r2 rs2) as (p2 & _ & Hp2 & ->).
  assert (p1 = p2) as <-.
  { apply Huniq.
    - by eapply first_min_elem_of.
    - rewrite Hperm. by eapply first_min_elem_of.
    - intros z Hz. by apply (first_min_time_le _ _ _ Hp1).
    - intros z Hz. apply (first_min_time_le _ _ _ Hp2). by rewrite <- Hperm. }
  unfold younger_front, older_front.
  by rewrite (sorted_by_age_perm_eq _ _ Hperm Hnd).
Qed.

Lemma front_order_independent_witness :
  compute_pareto_front sample_pool = compute_pareto_front (reverse sample_pool).
Proof.
  apply (front_order_independent sample_pool (reverse sample_pool)).
  - symmetry. apply reverse_Permutation.
  - refine (bool_decide_unpack _ _). vm_compute. exact I.
  - intros x y Hx Hy Hminx Hminy.
    assert (row "Eli" 30 1200 "2025" ∈ sample_pool) as Heli
      by (refine (bool_decide_unpack _ _); vm_compute; exact I).
    specialize (Hminx _ Heli). specialize (Hminy _ Heli).
    members Hx; members Hy; try reflexivity; exfalso; revert Hminx Hminy;
      vm_compute; intuition congruence.
Defined.

(** ** The age reducer on distinct ages *)

Lemma PyDict_get_fresh {V} k (d : PyDict.t V) : k ∉ PyDict.keys d → PyDict.get k d = None.
Proof.
  induction d as [|[k' v] d IH]; simpl; [done|].
  intros [Hne Hnotin]%not_elem_of_cons. rewrite decide_False by done. by apply IH.
Qed.

Lemma age_groups_loop_distinct l : ∀ pre,
  NoDup (age <$> (pre ++ l)) →
  foldl age_groups_step ((λ r, (age r, r)) <$> pre) l = (λ r, (age r, r)) <$> (pre ++ l).
Proof.
  induction l as [|r l IH]; intros pre Hnd; simpl; [by rewrite app_nil_r|].
  assert (age r ∉ PyDict.keys ((λ r, (age r, r)) <$> pre)) as Hfresh.
  { unfold PyDict.keys. rewrite <- list_fmap_compose.
    rewrite fmap_app, fmap_cons in Hnd. apply NoDup_app in Hnd as (_ & Hdisj & _).
    intros Hin. apply (Hdisj _ Hin). by apply elem_of_cons; left. }
  unfold age_groups_step at 2. rewrite (PyDict_get_fresh _ _ Hfresh).
  rewrite (PyDictFacts.set_fresh _ _ _ Hfresh).
  replace (((λ r0, (age r0, r0)) <$> pre) ++ [(age r, r)])
    with ((λ r0, (age r0, r0)) <$> (pre ++ [r])) by (by rewrite fmap_app).
  rewrite IH; rewrite <- app_assoc; done.
Qed.

Lemma get_fastest_at_each_age_distinct pool :
  NoDup (age <$> pool) → get_fastest_at_each_age pool = pool.
Proof.
  intros Hnd. destruct pool as [|r pool]; [done|].
  unfold get_fastest_at_each_age. cbn [py_not].
  change (foldl age_groups_step [] (r :: pool))
    with (foldl age_groups_step ((λ r, (age r, r)) <$> []) (r :: pool)).
  rewrite (age_groups_loop_distinct (r :: pool) [] Hnd). simpl app.
  unfold PyDict.values. rewrite <- list_fmap_compose. apply list_fmap_id.
Qed.

(** X6: the age reducer returns a pool with distinct ages unchanged, in the same
    order; hence reducing twice is the same as reducing once. *)
Theorem get_fastest_at_each_age_idempotent (pool : list runner) :
  (NoDup (age <$> pool) → get_fastest_at_each_age pool = pool) ∧
  get_fastest_at_each_age (get_fastest_at_each_age pool) = get_fastest_at_each_age pool.
Proof.
  split; [apply get_fastest_at_each_age_distinct|].
  apply get_fastest_at_each_age_distinct.
  destruct (get_fastest_at_each_age_inv pool) as (d & -> & [Hnd Hent _]).
  rewrite age_groups_values_ages; [done|]. intros k v Hin. by destruct (Hent k v Hin).
Qed.

(** ** The all-time front: reducer, then engine *)

(** X7: the front computed from the age-reduced pool has strictly increasing
    ages, hence at most one entry per age, and each entry is the first of the
    fastest pool records of its age. *)
Theorem all_time_front (pool : list runner) :
  ∃ fr, compute_pareto_front (get_fastest_at_each_age pool) = Ret fr ∧
    ages_increasing fr ∧
    ∀ v, v ∈ fr →
      v ∈ pool ∧
      (∀ r, r ∈ pool → age r = age v → (time_seconds v <= time_seconds r)%Q) ∧
      fastest_of_age pool v.
Proof.
  destruct (get_fastest_at_each_age_inv pool) as (d & Hd & [Hnd Hent _]).
  assert (NoDup (age <$> get_fastest_at_each_age pool)) as Hages.
  { rewrite Hd, age_groups_values_ages; [done|].
    intros k v Hin. by destruct (Hent k v Hin). }
  assert (∀ v, v ∈ get_fastest_at_each_age pool → fastest_of_age pool v) as Hfast.
  { rewrite Hd. intros v ([k v'] & -> & Hin)%list_elem_of_fmap. by destruct (Hent k v' Hin). }
  assert (∃ fr, compute_pareto_front (get_fastest_at_each_age pool) = Ret fr ∧
            ages_increasing fr ∧ ∀ v, v ∈ fr → v ∈ get_fastest_at_each_age pool)
    as (fr & Hfr & Hinc & Hsub).
  { destruct (get_fastest_at_each_age pool) as [|r0 rs] eqn:Heq.
    - exists []. split; [done|]. split; [|done]. intros i j x y _ Hi. by rewrite lookup_nil in Hi.
    - destruct (compute_pareto_front_cons r0 rs) as (peak & _ & _ & Hfr).
      eexists. split; [exact Hfr|]. split.
      + intros i j x y Hij Hi Hj.
        eapply (StronglySorted_lookup age_lt); [|exact Hij|exact Hi|exact Hj].
        apply front_age_sorted; [unfold age_lt; intros; lia|by apply sorted_by_age_strict].
      + intros v [Hv|Hv]%elem_of_app.
        * by apply younger_front_elem_of in Hv as [? _].
        * by apply older_front_elem_of in Hv as [? _]. }
  exists fr. split; [done|]. split; [done|]. intros v Hv.
  pose proof (Hfast v (Hsub v Hv)) as Hv'. unfold fastest_of_age in Hv'.
  split; [|split; [|done]].
  - apply first_min_elem_of in Hv'. by apply list_elem_of_filter in Hv' as [_ ?].
  - intros r Hr Hage. apply (first_min_time_le _ _ r Hv'). by apply list_elem_of_filter.
Qed.

(** ** Blocking runners and the front *)

Lemma count_blocking_runners_unfold r r0 rs peak :
  py_min Qlt time_seconds (r0 :: rs) = Ret peak →
  count_blocking_runners r (r0 :: rs) =
    if decide (age r < age peak) then
      Ret (length (filter (λ o, age o ≤ age r ∧ (time_seconds o < time_seconds r)%Q)
                     (r0 :: rs)))
    else if decide (age r > age peak) then
      Ret (length (filter (λ o, age o >= age r ∧ (time_seconds o < time_seconds r)%Q)
                     (r0 :: rs)))
    else if decide (time_seconds r == time_seconds peak)%Q then Ret O
    else
      Ret (length (filter (λ o, age o = age r ∧ (time_seconds o < time_seconds r)%Q)
                     (r0 :: rs))).
Proof.
  intros Hmin. unfold count_blocking_runners. rewrite Hmin.
  unfold mbind, py_bind. cbv beta iota. set (all := r0 :: rs).
  rewrite (foldl_count (λ o, age o ≤ age r ∧ (time_seconds o < time_seconds r)%Q)).
  rewrite (foldl_count (λ o, age o >= age r ∧ (time_seconds o < time_seconds r)%Q)).
  by rewrite sum_list_ones.
Qed.

Lemma filter_length_le {A} (P Q : A → Prop) `{!∀ x, Decision (P x)} `{!∀ x, Decision (Q x)}
    (l : list A) :
  (∀ x, P x → Q x) → (length (filter P l) ≤ length (filter Q l))%nat.
Proof.
  intros HPQ. induction l as [|x l IH]; [done|]. rewrite !filter_cons.
  destruct (decide (P x)) as [HP|HP].
  - rewrite decide_True by auto. simpl. lia.
  - case_decide; simpl; lia.
Qed.

(** X8: the count never exceeds the number of pool members strictly faster than
    the runner: the runner itself and runners with the same time are never
    counted, and a runner with the smallest time of the pool has no blockers. *)
Theorem count_blocking_runners_bound (r : runner) (pool : list runner) :
  pool ≠ [] →
  ∃ n, count_blocking_runners r pool = Ret n ∧
    (n ≤ length (filter (λ o, (time_seconds o < time_seconds r)%Q) pool))%nat ∧
    ((∀ z, z ∈ pool → (time_seconds r <= time_seconds z)%Q) → n = O).
Proof.
  intros Hne. destruct pool as [|r0 rs]; [done|].
  destruct (py_min_time r0 rs) as (peak & Hmin & _).
  assert (∃ n, count_blocking_runners r (r0 :: rs) = Ret n ∧
            (n ≤ length (filter (λ o, (time_seconds o < time_seconds r)%Q) (r0 :: rs)))%nat)
    as (n & Hn & Hle).
  { rewrite (count_blocking_runners_unfold _ _ _ _ Hmin).
    repeat case_decide; eexists; (split; [reflexivity|]);
      try (apply filter_length_le; by intros o [_ ?]). lia. }
  exists n. split; [done|]. split; [done|]. intros Hfast.
  rewrite filter_none in Hle; [simpl in Hle; lia|].
  apply Forall_forall. intros z Hz. specialize (Hfast z Hz). lra.
Qed.

Lemma count_blocking_runners_bound_witness :
  ∃ n, count_blocking_runners (row "Gus" 35 1310 "2025") sample_pool = Ret n ∧
    (n ≤ length (filter (λ o, (time_seconds o < time_seconds (row "Gus" 35 1310 "2025"))%Q)
                   sample_pool))%nat ∧
    ((∀ z, z ∈ sample_pool →
        (time_seconds (row "Gus" 35 1310 "2025") <= time_seconds z)%Q) → n = O).
Proof.
  apply (count_blocking_runners_bound (row "Gus" 35 1310 "2025") sample_pool).
  discriminate.
Defined.

Lemma halves_member_unblocked r0 rs peak r :
  py_min Qlt time_seconds (r0 :: rs) = Ret peak →
  first_min Qlt time_seconds (r0 :: rs) peak →
  NoDup (age <$> r0 :: rs) →
  r ∈ younger_front (age peak) (r0 :: rs) ++ older_front (age peak) (r0 :: rs) →
  count_blocking_runners r (r0 :: rs) = Ret O.
Proof.
  intros Hmin Hfirst Hnd Hr.
  rewrite (count_blocking_runners_unfold _ _ _ _ Hmin).
  set (pool := r0 :: rs) in *.
  destruct (decide (age r < age peak)) as [Hlt|Hnlt].
  - rewrite filter_none; [done|]. apply Forall_forall. intros o Ho [Hage Ht].
    pose proof (front_younger r0 rs peak r Hr Hlt) as HrY.
    destruct (younger_front_cover (age peak) pool o Ho ltac:(lia)) as (y & Hy & Hya & Hyt).
    pose proof (younger_front_mono r0 rs peak Hnd y r Hy HrY ltac:(lia)). lra.
  - destruct (decide (age r > age peak)) as [Hgt|Hngt].
    + rewrite filter_none; [done|]. apply Forall_forall. intros o Ho [Hage Ht].
      pose proof (front_older r0 rs peak r Hr ltac:(lia)) as HrO.
      destruct (older_front_cover (age peak) pool o Ho ltac:(lia)) as (y & Hy & Hya & Hyt).
      pose proof (older_front_mono r0 rs peak Hnd r y HrO Hy ltac:(lia)). lra.
    + assert (r = peak) as ->.
      { apply (NoDup_age_inj pool); [done| |by eapply first_min_elem_of|lia].
        by apply (front_in_pool r0 rs peak). }
      by rewrite decide_True.
Qed.

(** X9: with distinct ages, a record on the front has no blocking runners. *)
Theorem front_member_unblocked (pool fr : list runner) (r : runner) :
  NoDup (age <$> pool) → compute_pareto_front pool = Ret fr → r ∈ fr →
  count_blocking_runners r pool = Ret O.
Proof.
  intros Hnd Hfr Hr. destruct pool as [|r0 rs].
  { injection Hfr as <-. by apply elem_of_nil in Hr. }
  destruct (compute_pareto_front_cons r0 rs) as (peak & Hmin & Hfirst & Hfr').
  rewrite Hfr' in Hfr. injection Hfr as <-.
  by apply (halves_member_unblocked r0 rs peak).
Qed.

Lemma front_member_unblocked_witness :
  count_blocking_runners (row "Fay" 40 1290 "2025") sample_pool = Ret O.
Proof.
  apply (front_member_unblocked sample_pool
           [row "Cal" 20 1300 "2025"; row "Dee" 25 1250 "2025"; row "Eli" 30 1200 "2025";
            row "Fay" 40 1290 "2025"]).
  - refine (bool_decide_unpack _ _). vm_compute. exact I.
  - vm_compute. reflexivity.
  - refine (bool_decide_unpack _ _). vm_compute. exact I.
Defined.

(** X10: with distinct ages and distinct times, a pool record without blocking
    runners is on the front. *)
Theorem unblocked_on_front (pool : list runner) (r : runner) :
  NoDup (age <$> pool) → distinct_times pool → r ∈ pool →
  count_blocking_runners r pool = Ret O →
  ∃ fr, compute_pareto_front pool = Ret fr ∧ r ∈ fr.
Proof.
  intros Hnd Htimes Hr Hcount. destruct pool as [|r0 rs]; [by apply elem_of_nil in Hr|].
  destruct (compute_pareto_front_cons r0 rs) as (peak & Hmin & Hfirst & Hfr).
  eexists. split; [exact Hfr|].
  rewrite (count_blocking_runners_unfold _ _ _ _ Hmin) in Hcount.
  set (pool := r0 :: rs) in *.
  pose proof (sorted_by_age_sorted pool) as Hsorted.
  apply elem_of_app.
  destruct (decide (age r < age peak)) as [Hlt|Hnlt].
  - left. injection Hcount as Hcount. apply nil_length_inv in Hcount.
    assert (r ∈ filter (λ x, age x < age peak) (sorted_by_age pool)) as Hin.
    { apply list_elem_of_filter. split; [done|]. by rewrite sorted_by_age_elem_of. }
    assert (StronglySorted age_le (filter (λ x, age x < age peak) (sorted_by_age pool)))
      as Hs by (eapply StronglySorted_sublist; [apply sublist_filter; apply _|done]).
    apply list_elem_of_split_l in Hin as (l1 & l2 & Heq & Hnot).
    unfold younger_front. rewrite Heq in Hs |- *. apply scan_keeps; [|done].
    apply Forall_forall. intros o Ho.
    assert (o ∈ pool) as Hopool.
    { rewrite <- sorted_by_age_elem_of.
      eapply (list_elem_of_filter (λ x, age x < age peak)). rewrite Heq.
      apply elem_of_app. by left. }
    assert (age o ≤ age r) as Hage.
    { apply (StronglySorted_app_1_elem_of age_le l1 (r :: l2)); [done|done|].
      by apply elem_of_cons; left. }
    destruct (Qlt_le_dec (time_seconds r) (time_seconds o)) as [|Hle]; [done|].
    destruct (Qlt_le_dec (time_seconds o) (time_seconds r)) as [Hlt'|Hge].
    + by destruct (filter_nil_not_elem_of _ _ o Hcount).
    + destruct Hnot. rewrite <- (Htimes o r Hopool Hr); [done|]. by apply Qle_antisym.
  - right. destruct (decide (age r > age peak)) as [Hgt|Hngt].
    + injection Hcount as Hcount. apply nil_length_inv in Hcount.
      assert (r ∈ reverse (filter (λ x, age x >= age peak) (sorted_by_age pool))) as Hin.
      { rewrite elem_of_reverse. apply list_elem_of_filter. split; [lia|].
        by rewrite sorted_by_age_elem_of. }
      assert (StronglySorted (flip age_le)
                (reverse (filter (λ x, age x >= age peak) (sorted_by_age pool)))) as Hs.
      { apply StronglySorted_reverse.
        eapply StronglySorted_sublist; [apply sublist_filter; apply _|done]. }
      apply list_elem_of_split_l in Hin as (l1 & l2 & Heq & Hnot).
      unfold older_front. rewrite elem_of_reverse. rewrite Heq in Hs |- *.
      apply scan_keeps; [|done]. apply Forall_forall. intros o Ho.
      assert (o ∈ pool) as Hopool.
      { rewrite <- sorted_by_age_elem_of.
        eapply (list_elem_of_filter (λ x, age x >= age peak)).
        rewrite <- elem_of_reverse, Heq. apply elem_of_app. by left. }
      assert (age r ≤ age o) as Hage.
      { apply (StronglySorted_app_1_elem_of (flip age_le) l1 (r :: l2)); [done|done|].
        by apply elem_of_cons; left. }
      destruct (Qlt_le_dec (time_seconds r) (time_seconds o)) as [|Hle]; [done|].
      destruct (Qlt_le_dec (time_seconds o) (time_seconds r)) as [Hlt'|Hge].
      * destruct (filter_nil_not_elem_of _ _ o Hcount); [|done]. split; [lia|done].
      * destruct Hnot. rewrite <- (Htimes o r Hopool Hr); [done|]. by apply Qle_antisym.
    + assert (r = peak) as ->.
      { apply (NoDup_age_inj pool); [done|done|by eapply first_min_elem_of|lia]. }
      apply older_front_keeps; [done|lia|].
      intros z Hz _ Ht. apply Htimes; [done..|].
      apply Qle_antisym; [done|]. by apply (first_min_time_le pool).
Qed.

Lemma unblocked_on_front_witness :
  ∃ fr, compute_pareto_front sample_pool = Ret fr ∧ row "Fay" 40 1290 "2025" ∈ fr.
Proof.
  apply (unblocked_on_front sample_pool (row "Fay" 40 1290 "2025")).
  - refine (bool_decide_unpack _ _). vm_compute. exact I.
  - intros x y Hx Hy. members Hx; members Hy; try reflexivity; vm_compute; discriminate.
  - refine (bool_decide_unpack _ _). vm_compute. exact I.
  - reflexivity.
Defined.

(** ** Range of the front time *)

Lemma interpolation_ge_older (ty to : Q) (k d : Z) :
  (to <= ty)%Q → 0 < k → k < d →
  (to <= ty + (to - ty) * inject_Z k / inject_Z d)%Q.
Proof.
  intros Ht Hk Hd. destruct (ratio_bounds k d Hk Hd) as [H0 H1].
  assert ((to - ty) * inject_Z k / inject_Z d == (to - ty) * (inject_Z k / inject_Z d))%Q
    as -> by (unfold Qdiv; ring).
  nra.
Qed.

Lemma interpolation_ge_younger (ty to : Q) (k d : Z) :
  (ty <= to)%Q → 0 < k → k < d →
  (ty <= ty + (to - ty) * inject_Z k / inject_Z d)%Q.
Proof.
  intros Ht Hk Hd. destruct (ratio_bounds k d Hk Hd) as [H0 H1].
  assert ((to - ty) * inject_Z k / inject_Z d == (to - ty) * (inject_Z k / inject_Z d))%Q
    as -> by (unfold Qdiv; ring).
  nra.
Qed.

Lemma get_pareto_time_at_age_lower (a : Z) (fr : list runner) :
  fr ≠ [] →
  ∃ t lo, get_pareto_time_at_age a fr = Ret (Some t) ∧
    lo ∈ fr ∧ (time_seconds lo <= t)%Q.
Proof.
  intros Hne. destruct (get_pareto_time_at_age_cases a fr) as (res & -> & Hres).
  inversion Hres as [He|p Hp Hpa|p Hp Hall|p Hp Hall|y o Hy Ho Hno Hbetween Hny Hno'];
    subst res; [done|..].
  1-3: exists (time_seconds p), p; repeat split; (done || lra).
  destruct (Qlt_le_dec (time_seconds y) (time_seconds o)) as [Hlt|Hge].
  - eexists _, y. do 2 (split; [done|]). apply interpolation_ge_younger; [lra|lia|lia].
  - eexists _, o. do 2 (split; [done|]). apply interpolation_ge_older; [lra|lia|lia].
Qed.





(** ** Display names tell years apart *)

Lemma append_inj_l (s t1 t2 : string) : s +:+ t1 = s +:+ t2 → t1 = t2.
Proof. induction s as [|c s IH]; simpl; [done|]. intros [= H]. by apply IH. Qed.

Lemma append_closing_inj (s1 s2 : string) : s1 +:+ ")" = s2 +:+ ")" → s1 = s2.
Proof.
  revert s2. induction s1 as [|c s1 IH]; intros [|c2 s2]; simpl; try done.
  - intros [= _ H]. by destruct s2.
  - intros [= _ H]. by destruct s1.
  - intros [= -> H]. f_equal. by apply IH.
Qed.

(** X14: two records of the all-time view that share a raw name but come from
    different years get different display names. *)
Theorem display_names_distinguish_years (all_results : list runner) :
  ∃ shown, add_display_names all_results = Ret shown ∧
    ∀ r1 d1 r2 d2, (r1, d1) ∈ shown → (r2, d2) ∈ shown →
      name r1 = name r2 → year r1 ≠ year r2 → d1 ≠ d2.
Proof.
  eexists. split; [apply add_display_names_eq|].
  intros r1 d1 r2 d2 (r1' & [= -> ->] & Hr1)%list_elem_of_fmap
         (r2' & [= -> ->] & Hr2)%list_elem_of_fmap Hname Hyear.
  assert (spans_years all_results (name r1')) as Hspan1 by (by exists r1', r2').
  assert (spans_years all_results (name r2')) as Hspan2 by (by rewrite <- Hname).
  apply spans_years_distinct in Hspan1, Hspan2.
  unfold shown_name. rewrite !decide_True by done. rewrite Hname.
  intros Heq. apply append_inj_l, (append_inj_l " (") in Heq.
  by apply append_closing_inj in Heq.
Qed.

(** ** The list of front winners *)

Section py_sort_facts.
Context {A K : Type} (lt : relation K) `{!RelDecision lt} (key : A → K).

(** A list without inversions is returned unchanged. *)
Lemma sort_by_id l :
  StronglySorted (λ x y, ¬ lt (key y) (key x)) l → sort_by lt key l = l.
Proof.
  induction 1 as [|x l Hl IH Hx]; simpl; [done|].
  rewrite IH. destruct Hx as [|y l Hxy _]; simpl; [done|].
  by rewrite decide_False.
Qed.

(** An element larger than a prefix, and not larger than what follows the
    prefix, is inserted right after the prefix. *)
Lemma insert_by_after x l1 l2 :
  Forall (λ y, lt (key y) (key x)) l1 →
  Forall (λ y, ¬ lt (key y) (key x)) l2 →
  insert_by lt key x (l1 ++ l2) = l1 ++ x :: l2.
Proof.
  intros H1 H2. induction H1 as [|y l1 Hy _ IH]; simpl.
  - destruct H2 as [|y l2 Hy _]; simpl; [done|]. by rewrite decide_False.
  - by rewrite decide_True, IH.
Qed.

(** A sorted block followed by a sorted block of strictly smaller keys: the
    sort swaps the two blocks and keeps each in its order. *)
Lemma sort_by_blocks l1 l2 :
  StronglySorted (λ x y, ¬ lt (key y) (key x)) l1 →
  StronglySorted (λ x y, ¬ lt (key y) (key x)) l2 →
  (∀ x y, x ∈ l1 → y ∈ l2 → lt (key y) (key x)) →
  sort_by lt key (l1 ++ l2) = l2 ++ l1.
Proof.
  intros H1 H2 Hlt. induction H1 as [|x l1 Hl1 IH Hx]; simpl.
  - rewrite app_nil_r. by apply sort_by_id.
  - rewrite IH.
    + apply insert_by_after.
      * apply Forall_forall. intros y Hy. apply Hlt; [by apply elem_of_cons; left|done].
      * done.
    + intros y z Hy Hz. apply Hlt; [by apply elem_of_cons; right|done].
Qed.
End py_sort_facts.

Lemma foldl_snoc_fmap {A B} (f : A → B) (l : list A) : ∀ acc,
  foldl (λ acc r, acc ++ [f r]) acc l = acc ++ (f <$> l).
Proof.
  induction l as [|x l IH]; intros acc; simpl; [by rewrite app_nil_r|].
  by rewrite IH, <- app_assoc.
Qed.

Lemma pareto_winners_blocks winner_set (male_pareto female_pareto : list runner) :
  StronglySorted age_le male_pareto → StronglySorted age_le female_pareto →
  pareto_winners winner_set male_pareto female_pareto =
    (pareto_winner_of winner_set F <$> female_pareto) ++
    (pareto_winner_of winner_set M <$> male_pareto).
Proof.
  intros Hm Hf. unfold pareto_winners. rewrite !foldl_snoc_fmap. simpl.
  apply sort_by_blocks.
  - eapply StronglySorted_fmap; [|exact Hm].
    intros x y Hxy [[? ?]|[_ ?]]; simpl in *; [done|]. unfold age_le in Hxy. lia.
  - eapply StronglySorted_fmap; [|exact Hf].
    intros x y Hxy [[? ?]|[_ ?]]; simpl in *; [done|]. unfold age_le in Hxy. lia.
  - intros x y (r1 & -> & _)%list_elem_of_fmap (r2 & -> & _)%list_elem_of_fmap.
    by left.
Qed.

Lemma front_age_le rs :
  ∃ fr, compute_pareto_front rs = Ret fr ∧ StronglySorted age_le fr.
Proof.
  destruct rs as [|r0 rs]; [exists []; split; [done|constructor]|].
  destruct (compute_pareto_front_cons r0 rs) as (peak & _ & _ & Hfr).
  eexists. split; [exact Hfr|].
  apply front_age_sorted; [unfold age_le; intros; lia|apply sorted_by_age_sorted].
Qed.

(** X15: in the list of front winners the entries of the female front come first,
    then those of the male front, each in the order of its front: the sort by
    [(sex, age)] only swaps the two blocks. *)
Theorem pareto_winners_order (winner_set : gset (string * Z * sex_t))
    (male_results female_results : list runner) :
  ∃ male_pareto female_pareto,
    compute_pareto_front male_results = Ret male_pareto ∧
    compute_pareto_front female_results = Ret female_pareto ∧
    pareto_winners winner_set male_pareto female_pareto =
      (pareto_winner_of winner_set F <$> female_pareto) ++
      (pareto_winner_of winner_set M <$> male_pareto).
Proof.
  destruct (front_age_le male_results) as (mp & Hmp & Hms).
  destruct (front_age_le female_results) as (fp & Hfp & Hfs).
  exists mp, fp. split; [done|]. split; [done|]. by apply pareto_winners_blocks.
Qed.

Lemma age_group_winner_set_spec results : ∀ (start : gset (string * Z * sex_t)) k,
  k ∈ foldl (λ winner_set result,
               if decide (div_place result = "1" ∧ division result ≠ "")
               then winner_set ∪ {[ (name result, age result, sex result) ]}
               else winner_set)
            start results ↔
  k ∈ start ∨
  ∃ r, r ∈ results ∧ (name r, age r, sex r) = k ∧ div_place r = "1" ∧ division r ≠ "".
Proof.
  induction results as [|r results IH]; intros start k; simpl.
  - split; [by left|]. intros [?|(r & Hr & _)]; [done|by apply elem_of_nil in Hr].
  - rewrite IH. split.
    + intros [Hk|(r' & Hr' & Hrest)].
      * case_decide as Hwin; [|by left].
        apply elem_of_union in Hk as [Hk|Hk]; [by left|].
        apply elem_of_singleton in Hk. right. exists r.
        split; [by apply elem_of_cons; left|]. by destruct Hwin.
      * right. exists r'. split; [by apply elem_of_cons; right|done].
    + intros [Hk|(r' & Hr' & Hkey & Hplace & Hdiv)].
      * left. case_decide; [apply elem_of_union; by left|done].
      * apply elem_of_cons in Hr' as [->|Hr'].
        -- left. rewrite decide_True by done. apply elem_of_union. right.
           by apply elem_of_singleton.
        -- right. by exists r'.
Qed.

(** X16: a front winner is flagged as an age-group winner exactly when some result
    row with the same name, age and sex (not necessarily the front record
    itself) has division place ['1'] and a non-empty division. *)
Theorem pareto_winner_flag (results male_results female_results : list runner) :
  ∃ male_pareto female_pareto,
    compute_pareto_front male_results = Ret male_pareto ∧
    compute_pareto_front female_results = Ret female_pareto ∧
    ∀ w, w ∈ pareto_winners (age_group_winner_set results) male_pareto female_pareto →
      (pw_is_age_group_winner w = true ↔
       ∃ r, r ∈ results ∧ name r = pw_name w ∧ age r = pw_age w ∧ sex r = pw_sex w ∧
            div_place r = "1" ∧ division r ≠ "").
Proof.
  destruct (front_age_le male_results) as (mp & Hmp & Hms).
  destruct (front_age_le female_results) as (fp & Hfp & Hfs).
  exists mp, fp. split; [done|]. split; [done|]. intros w.
  rewrite (pareto_winners_blocks _ _ _ Hms Hfs).
  assert (∀ s r, pw_is_age_group_winner (pareto_winner_of (age_group_winner_set results) s r)
                 = true ↔
                 ∃ r', r' ∈ results ∧ name r' = name r ∧ age r' = age r ∧ sex r' = s ∧
                       div_place r' = "1" ∧ division r' ≠ "") as Hflag.
  { intros s r. simpl. rewrite bool_decide_eq_true.
    unfold age_group_winner_set. rewrite age_group_winner_set_spec. split.
    - intros [Hk|(r' & Hr' & [= Hn Ha Hs] & Hrest)]; [by apply elem_of_empty in Hk|].
      by exists r'.
    - intros (r' & Hr' & Hn & Ha & Hs & Hrest). right. exists r'.
      split; [done|]. split; [congruence|done]. }
  intros [Hw|Hw]%elem_of_app; apply list_elem_of_fmap in Hw as (r & -> & _); apply Hflag.
Qed.

(** ** The youngest record *)

(** X4: when some record is younger than the peak age, the front starts with the
    first record of the age-sorted input, a record of the smallest age. *)
Theorem front_starts_with_youngest (rs : list runner) (peak x : runner) :
  py_min Qlt time_seconds rs = Ret peak → x ∈ rs → age x < age peak →
  ∃ fr z, compute_pareto_front rs = Ret fr ∧
    head fr = Some z ∧ head (sorted_by_age rs) = Some z ∧
    ∀ y, y ∈ rs → age z ≤ age y.
Proof.
  intros Hmin Hx Hage. destruct rs as [|r0 rs]; [discriminate|].
  destruct (compute_pareto_front_cons r0 rs) as (peak' & Hmin' & _ & Hfr).
  rewrite Hmin in Hmin'. injection Hmin' as <-.
  set (pool := r0 :: rs) in *.
  pose proof (sorted_by_age_sorted pool) as Hsorted.
  pose proof (sorted_split_at (age peak) _ Hsorted) as Hsplit.
  destruct (filter (λ r, age r < age peak) (sorted_by_age pool)) as [|z l] eqn:Hyounger.
  { assert (x ∈ filter (λ r, age r < age peak) (sorted_by_age pool)) as Hin
      by (apply list_elem_of_filter; split; [done|by rewrite sorted_by_age_elem_of]).
    rewrite Hyounger in Hin. by apply elem_of_nil in Hin. }
  exists (younger_front (age peak) pool ++ older_front (age peak) pool), z.
  split; [done|]. split; [|split].
  - unfold younger_front. by rewrite Hyounger.
  - by rewrite Hsplit.
  - intros y Hy. rewrite <- sorted_by_age_elem_of, Hsplit in Hy. rewrite Hsplit in Hsorted.
    simpl in Hy, Hsorted. apply elem_of_cons in Hy as [->|Hy]; [lia|].
    apply StronglySorted_inv in Hsorted as [_ Hz]. rewrite Forall_forall in Hz.
    by apply Hz.
Qed.

Lemma front_starts_with_youngest_witness :
  ∃ fr z, compute_pareto_front sample_pool = Ret fr ∧
    head fr = Some z ∧ head (sorted_by_age sample_pool) = Some z ∧
    ∀ y, y ∈ sample_pool → age z ≤ age y.
Proof.
  apply (front_starts_with_youngest sample_pool (row "Eli" 30 1200 "2025")
           (row "Cal" 20 1300 "2025")).
  - reflexivity.
  - refine (bool_decide_unpack _ _). vm_compute. exact I.
  - simpl. lia.
Defined.

(** ** Blocking counts and speed *)

(** X11: of two runners of the same age, the one that is no slower has no more
    blocking runners. *)
Theorem count_blocking_runners_monotone (r1 r2 : runner) (pool : list runner) :
  pool ≠ [] → age r1 = age r2 → (time_seconds r1 <= time_seconds r2)%Q →
  ∃ n1 n2, count_blocking_runners r1 pool = Ret n1 ∧
    count_blocking_runners r2 pool = Ret n2 ∧ (n1 ≤ n2)%nat.
Proof.
  intros Hne Hage Ht. destruct pool as [|r0 rs]; [done|].
  destruct (py_min_time r0 rs) as (peak & Hmin & Hfirst).
  rewrite !(count_blocking_runners_unfold _ _ _ _ Hmin). rewrite Hage.
  destruct (decide (age r2 < age peak)); [|destruct (decide (age r2 > age peak))].
  - eexists _, _. do 2 (split; [reflexivity|]).
    apply filter_length_le. intros o [? ?]. split; [done|lra].
  - eexists _, _. do 2 (split; [reflexivity|]).
    apply filter_length_le. intros o [? ?]. split; [done|lra].
  - destruct (decide (time_seconds r1 == time_seconds peak)%Q) as [Heq1|Hne1].
    + destruct (decide (time_seconds r2 == time_seconds peak)%Q);
        eexists _, _; (split; [reflexivity|]); (split; [reflexivity|]); lia.
    + destruct (decide (time_seconds r2 == time_seconds peak)%Q) as [Heq2|Hne2].
      * eexists _, _. do 2 (split; [reflexivity|]).
        rewrite filter_none; [done|]. apply Forall_forall. intros o Ho [_ Hlt].
        pose proof (first_min_time_le _ _ o Hfirst Ho). lra.
      * eexists _, _. do 2 (split; [reflexivity|]).
        apply filter_length_le. intros o [? ?]. split; [done|lra].
Qed.

Lemma count_blocking_runners_monotone_witness :
  ∃ n1 n2,
    count_blocking_runners (row "Fay" 40 1290 "2025") sample_pool = Ret n1 ∧
    count_blocking_runners (row "Hal" 40 1400 "2025") sample_pool = Ret n2 ∧ (n1 ≤ n2)%nat.
Proof.
  apply (count_blocking_runners_monotone (row "Fay" 40 1290 "2025")
           (row "Hal" 40 1400 "2025") sample_pool).
  - discriminate.
  - reflexivity.
  - vm_compute. discriminate.
Defined.

(** The sort used for the winner lists agrees with the sort by age used by
    the engine. *)
Lemma sorted_by_age_sort_by l : sorted_by_age l = sort_by Z.lt age l.
Proof.
  induction l as [|x l IH]; simpl; [done|]. rewrite <- IH. clear IH.
  induction (sorted_by_age l) as [|y ys IH]; simpl; [done|].
  destruct (decide (age x ≤ age y)).
  - by rewrite decide_False by lia.
  - by rewrite decide_True, IH by lia.
Qed.

(** ** The ranking *)

Section py_sort_order.
Context {A K : Type} (lt : relation K) `{!RelDecision lt} (key : A → K).
Hypothesis lt_asym : ∀ a b, lt a b → ¬ lt b a.
Hypothesis nlt_trans : ∀ a b c, ¬ lt b a → ¬ lt c b → ¬ lt c a.

Lemma insert_by_perm x l : insert_by lt key x l ≡ₚ x :: l.
Proof.
  induction l as [|y l IH]; simpl; [done|].
  case_decide; [|done]. rewrite IH. apply Permutation_swap.
Qed.

Lemma sort_by_perm l : sort_by lt key l ≡ₚ l.
Proof.
  induction l as [|x l IH]; simpl; [done|]. by rewrite insert_by_perm, IH.
Qed.

Lemma insert_by_sorted x l :
  StronglySorted (λ a b, ¬ lt (key b) (key a)) l →
  StronglySorted (λ a b, ¬ lt (key b) (key a)) (insert_by lt key x l).
Proof.
  induction 1 as [|y l Hl IH Hy]; simpl; [repeat constructor|].
  case_decide as Hyx.
  - constructor; [done|]. rewrite insert_by_perm. constructor; [by apply lt_asym|done].
  - constructor; [by constructor|]. constructor; [done|].
    eapply Forall_impl; [exact Hy|]. simpl. intros z Hz. by apply nlt_trans with (key y).
Qed.

Lemma sort_by_sorted l :
  StronglySorted (λ a b, ¬ lt (key b) (key a)) (sort_by lt key l).
Proof. induction l; simpl; [constructor|]. by apply insert_by_sorted. Qed.
End py_sort_order.

Lemma distance_time_lt_asym k1 k2 : distance_time_lt k1 k2 → ¬ distance_time_lt k2 k1.
Proof. unfold distance_time_lt. intros [?|[? ?]] [?|[? ?]]; lra. Qed.

Lemma distance_time_nlt_trans k1 k2 k3 :
  ¬ distance_time_lt k2 k1 → ¬ distance_time_lt k3 k2 → ¬ distance_time_lt k3 k1.
Proof.
  unfold distance_time_lt. intros H21 H32 H31.
  destruct (Qlt_le_dec k2.1 k1.1) as [|Hle1]; [tauto|].
  destruct (Qlt_le_dec k3.1 k2.1) as [|Hle2]; [tauto|].
  destruct H31 as [?|[Heq Hlt]]; [lra|].
  assert (k2.1 == k1.1)%Q as Heq1 by lra. assert (k3.1 == k2.1)%Q as Heq2 by lra.
  destruct (Qlt_le_dec k2.2 k1.2) as [|Hle3]; [tauto|].
  destruct (Qlt_le_dec k3.2 k2.2) as [|Hle4]; [tauto|]. lra.
Qed.

Lemma mapM_py_total {A B} (f : A → py B) (l : list A) :
  (∀ x, x ∈ l → ∃ y, f x = Ret y) →
  ∃ k, mapM f l = Ret k ∧ Forall2 (λ x y, f x = Ret y) l k.
Proof.
  induction l as [|x l IH]; intros Hf; simpl; [by exists []|].
  destruct (Hf x) as [y Hy]; [by apply elem_of_cons; left|].
  destruct IH as (k & Hk & Hall); [intros z Hz; apply Hf; by apply elem_of_cons; right|].
  exists (y :: k). rewrite Hy. simpl. rewrite Hk. simpl. split; [done|by constructor].
Qed.

(** The metrics of a pool record are computed without raising. *)
Lemma runner_data_of_returns fr pool r :
  r ∈ pool →
  ∃ t n, get_pareto_time_at_age (age r) fr = Ret t ∧
    count_blocking_runners r pool = Ret n ∧
    runner_data_of fr pool r =
      Ret (RunnerData (age r) (time_seconds r) (time_display r) (name r)
             (match t with
              | Some t => if decide (t == 0)%Q then None else Some (time_seconds r - t)%Q
              | None => None
              end) n).
Proof.
  intros Hr. destruct (get_pareto_time_at_age_cases (age r) fr) as (t & Ht & _).
  destruct pool as [|r0 rs]; [by apply elem_of_nil in Hr|].
  destruct (count_blocking_runners_returns r r0 rs) as [n Hn].
  exists t, n. split; [done|]. split; [done|].
  unfold runner_data_of, distance_to_pareto. rewrite Ht. simpl. by rewrite Hn.
Qed.

(** The result of [pareto_adjusted_rankings], with the intermediate values. *)
Lemma pareto_adjusted_rankings_eq male_results female_results :
  ∃ male_pareto female_pareto male_data female_data,
    compute_pareto_front male_results = Ret male_pareto ∧
    compute_pareto_front female_results = Ret female_pareto ∧
    Forall2 (λ r d, runner_data_of male_pareto male_results r = Ret d) male_results male_data ∧
    Forall2 (λ r d, runner_data_of female_pareto female_results r = Ret d)
            female_results female_data ∧
    pareto_adjusted_rankings male_results female_results =
      Ret (sort_by distance_time_lt (λ x, (adj_distance_to_pareto x, adj_time_seconds x))
             ((adjusted_of M <$> male_data) ++ (adjusted_of F <$> female_data))).
Proof.
  destruct (front_age_le male_results) as (mp & Hmp & _).
  destruct (front_age_le female_results) as (fp & Hfp & _).
  destruct (mapM_py_total (runner_data_of mp male_results) male_results) as (md & Hmd & Hm).
  { intros r Hr. destruct (runner_data_of_returns mp male_results r Hr) as (t & n & _ & _ & ->).
    eauto. }
  destruct (mapM_py_total (runner_data_of fp female_results) female_results) as (fd & Hfd & Hf).
  { intros r Hr. destruct (runner_data_of_returns fp female_results r Hr) as (t & n & _ & _ & ->).
    eauto. }
  exists mp, fp, md, fd. do 4 (split; [done|]).
  unfold pareto_adjusted_rankings. rewrite Hmp, Hfp. simpl. rewrite Hmd. simpl.
  rewrite Hfd. simpl. by rewrite !foldl_snoc_fmap.
Qed.

Lemma runner_data_of_inv fr pool r d :
  runner_data_of fr pool r = Ret d →
  ∃ dist n, distance_to_pareto r fr = Ret dist ∧ count_blocking_runners r pool = Ret n ∧
    d = RunnerData (age r) (time_seconds r) (time_display r) (name r) dist n.
Proof.
  unfold runner_data_of. intros H.
  destruct (distance_to_pareto r fr) as [dist|e]; [|done]. simpl in H.
  destruct (count_blocking_runners r pool) as [n|e]; [|done]. simpl in H.
  injection H as <-. by exists dist, n.
Qed.

Lemma sort_by_ranked l :
  ranked (sort_by distance_time_lt (λ x, (adj_distance_to_pareto x, adj_time_seconds x)) l).
Proof.
  intros i j e1 e2 Hij H1 H2.
  pose proof (sort_by_sorted distance_time_lt
    (λ x, (adj_distance_to_pareto x, adj_time_seconds x))
    distance_time_lt_asym distance_time_nlt_trans l) as Hs.
  pose proof (StronglySorted_lookup _ _ i j e1 e2 Hs Hij H1 H2) as Hn.
  unfold distance_time_lt in Hn. simpl in Hn.
  destruct (Qlt_le_dec (adj_distance_to_pareto e2) (adj_distance_to_pareto e1)); [tauto|].
  split; [done|]. intros Heq.
  destruct (Qlt_le_dec (adj_time_seconds e2) (adj_time_seconds e1)); [|done].
  exfalso. apply Hn. right. split; [by symmetry|done].
Qed.

(** The ranking is always produced, with one row for each record of the two
    pools, in order of distance and then time. *)
Lemma pareto_adjusted_rankings_rows (male_results female_results : list runner) :
  ∃ ranking, pareto_adjusted_rankings male_results female_results = Ret ranking ∧
    (λ e, (adj_name e, adj_age e, adj_sex e, adj_time_display e, adj_time_seconds e))
      <$> ranking ≡ₚ
    ((λ r, (name r, age r, M, time_display r, time_seconds r)) <$> male_results) ++
    ((λ r, (name r, age r, F, time_display r, time_seconds r)) <$> female_results) ∧
    ranked ranking.
Proof.
  destruct (pareto_adjusted_rankings_eq male_results female_results)
    as (mp & fp & md & fd & _ & _ & Hm & Hf & ->).
  eexists. split; [done|]. split; [|apply sort_by_ranked].
  rewrite sort_by_perm, fmap_app.
  assert (∀ s fr pool l k,
    Forall2 (λ r d, runner_data_of fr pool r = Ret d) l k →
    (λ e, (adj_name e, adj_age e, adj_sex e, adj_time_display e, adj_time_seconds e))
      <$> (adjusted_of s <$> k) =
    (λ r, (name r, age r, s, time_display r, time_seconds r)) <$> l) as Hrows.
  { intros s fr pool l k. induction 1 as [|r d l k Hd _ IH]; [done|].
    rewrite !fmap_cons, IH.
    by apply runner_data_of_inv in Hd as (dist & n & _ & _ & ->). }
  by rewrite (Hrows M _ _ _ _ Hm), (Hrows F _ _ _ _ Hf).
Qed.

(** The row of a record of a regular pool: its distance is not negative,
    and a front member has distance zero and no blocking runner. *)
Lemma regular_pool_row s pool fr r d :
  regular_pool pool → compute_pareto_front pool = Ret fr → r ∈ pool →
  runner_data_of fr pool r = Ret d →
  entry_of s r (adjusted_of s d) ∧
  (0 <= adj_distance_to_pareto (adjusted_of s d))%Q ∧
  (r ∈ fr → (adj_distance_to_pareto (adjusted_of s d) == 0)%Q ∧
            adj_blocking_runners (adjusted_of s d) = O).
Proof.
  intros [Hnd Htie] Hfr Hr Hd. destruct pool as [|r0 rs]; [by apply elem_of_nil in Hr|].
  destruct (compute_pareto_front_cons r0 rs) as (peak & Hmin & Hfirst & Hfr').
  rewrite Hfr' in Hfr. injection Hfr as <-.
  destruct (front_time_le r0 rs peak Hmin Hfirst Hnd Htie r Hr) as (t & Ht & Hle & Hon).
  apply runner_data_of_inv in Hd as (dist & n & Hdist & Hn & ->).
  unfold distance_to_pareto in Hdist. rewrite Ht in Hdist. simpl in Hdist.
  injection Hdist as <-. split; [done|]. unfold adjusted_of. simpl. split.
  - case_decide; simpl; lra.
  - intros Hin. split.
    + rewrite <- (Hon Hin). case_decide; simpl; lra.
    + rewrite (halves_member_unblocked r0 rs peak r Hmin Hfirst Hnd Hin) in Hn.
      by injection Hn as <-.
Qed.

Lemma front_elem_of_pool pool fr r :
  compute_pareto_front pool = Ret fr → r ∈ fr → r ∈ pool.
Proof.
  intros Hfr Hr. destruct pool as [|r0 rs].
  { injection Hfr as <-. by apply elem_of_nil in Hr. }
  destruct (compute_pareto_front_cons r0 rs) as (peak & Hmin & Hfirst & Hfr').
  rewrite Hfr' in Hfr. injection Hfr as <-. by apply (front_in_pool r0 rs peak).
Qed.

(** The rows of a regular pool. *)
Lemma regular_pool_rows s pool fr data :
  regular_pool pool → compute_pareto_front pool = Ret fr →
  Forall2 (λ r d, runner_data_of fr pool r = Ret d) pool data →
  (∀ d, d ∈ data → (0 <= adj_distance_to_pareto (adjusted_of s d))%Q) ∧
  (∀ r, r ∈ fr → ∃ d, d ∈ data ∧ entry_of s r (adjusted_of s d) ∧
     (adj_distance_to_pareto (adjusted_of s d) == 0)%Q ∧
     adj_blocking_runners (adjusted_of s d) = O).
Proof.
  intros Hreg Hfr Hall. split.
  - intros d Hd. apply list_elem_of_lookup in Hd as [i Hi].
    destruct (Forall2_lookup_r _ _ _ _ _ Hall Hi) as (r & Hr & Hrd).
    apply (regular_pool_row s pool fr r d); [done|done| |done].
    by eapply list_elem_of_lookup_2.
  - intros r Hr. pose proof (front_elem_of_pool pool fr r Hfr Hr) as Hin.
    apply list_elem_of_lookup in Hin as [i Hi].
    destruct (Forall2_lookup_l _ _ _ _ _ Hall Hi) as (d & Hd & Hrd).
    exists d. split; [by eapply list_elem_of_lookup_2|].
    destruct (regular_pool_row s pool fr r d) as (He & _ & Hz); [done|done| |done|].
    { by eapply list_elem_of_lookup_2. }
    by destruct (Hz Hr).
Qed.

Lemma results_of_sex_rows (results : list runner) :
  ((λ r, (name r, age r, M, time_display r, time_seconds r)) <$> results_of_sex M results) ++
  ((λ r, (name r, age r, F, time_display r, time_seconds r)) <$> results_of_sex F results)
  ≡ₚ (λ r, (name r, age r, sex r, time_display r, time_seconds r)) <$> results.
Proof.
  unfold results_of_sex. induction results as [|r l IH]; [done|].
  rewrite !filter_cons, fmap_cons. destruct (sex r) eqn:Hs.
  - rewrite decide_True, decide_False by done. rewrite fmap_cons. simpl.
    by rewrite IH.
  - rewrite decide_False, decide_True by done. rewrite fmap_cons.
    by rewrite <- Permutation_middle, IH.
Qed.


(** With regular pools, no row of the ranking has a negative distance, and
    a front member has a row of distance zero before the rows of positive
    distance. *)
Lemma pareto_adjusted_rankings_front_first (male_results female_results : list runner)
    (ranking : list adjusted_runner) :
  regular_pool male_results → regular_pool female_results →
  pareto_adjusted_rankings male_results female_results = Ret ranking →
  (∀ e, e ∈ ranking → (0 <= adj_distance_to_pareto e)%Q) ∧
  ∀ s pool fr r,
    (s = M ∧ pool = male_results) ∨ (s = F ∧ pool = female_results) →
    compute_pareto_front pool = Ret fr → r ∈ fr →
    ∃ i e, ranking !! i = Some e ∧ entry_of s r e ∧
      (adj_distance_to_pareto e == 0)%Q ∧ adj_blocking_runners e = O ∧
      ∀ j e', ranking !! j = Some e' → (0 < adj_distance_to_pareto e')%Q → (i < j)%nat.
Proof.
  intros HM HF Hrank.
  destruct (pareto_adjusted_rankings_eq male_results female_results)
    as (mp & fp & md & fd & Hmp & Hfp & Hm & Hf & Heq).
  rewrite Heq in Hrank. injection Hrank as <-.
  set (l := (adjusted_of M <$> md) ++ (adjusted_of F <$> fd)).
  set (key := λ x, (adj_distance_to_pareto x, adj_time_seconds x)).
  destruct (regular_pool_rows M male_results mp md HM Hmp Hm) as [HMpos HMfront].
  destruct (regular_pool_rows F female_results fp fd HF Hfp Hf) as [HFpos HFfront].
  split.
  - intros e He. rewrite sort_by_perm in He. apply elem_of_app in He as [He|He];
      apply list_elem_of_fmap in He as (d & -> & Hd); auto.
  - intros s pool fr r Hcase Hfr Hr.
    assert (∃ d, adjusted_of s d ∈ l ∧ entry_of s r (adjusted_of s d) ∧
       (adj_distance_to_pareto (adjusted_of s d) == 0)%Q ∧
       adj_blocking_runners (adjusted_of s d) = O) as (d & Hl & He & Hz & Hb).
    { destruct Hcase as [[-> ->]|[-> ->]].
      - rewrite Hmp in Hfr. injection Hfr as <-.
        destruct (HMfront r Hr) as (d & Hd & H'). exists d.
        split; [|done]. apply elem_of_app. left. by apply list_elem_of_fmap_2.
      - rewrite Hfp in Hfr. injection Hfr as <-.
        destruct (HFfront r Hr) as (d & Hd & H'). exists d.
        split; [|done]. apply elem_of_app. right. by apply list_elem_of_fmap_2. }
    rewrite <- (sort_by_perm distance_time_lt key l) in Hl.
    apply list_elem_of_lookup in Hl as [i Hi].
    exists i, (adjusted_of s d). do 4 (split; [done|]).
    intros j e' Hj Hpos.
    destruct (Nat.lt_trichotomy i j) as [Hlt|[Heqij|Hgt]]; [done|..].
    + subst j. rewrite Hi in Hj. injection Hj as <-. lra.
    + destruct (sort_by_ranked l j i e' (adjusted_of s d) Hgt Hj Hi) as [Hle _]. lra.
Qed.



(** ** The two winner lists *)

Lemma foldl_snoc_filter {A B} (P : A → Prop) `{!∀ x, Decision (P x)} (f : A → B) l :
  ∀ acc, foldl (λ acc r, if decide (P r) then acc ++ [f r] else acc) acc l =
         acc ++ (f <$> filter P l).
Proof.
  induction l as [|x l IH]; intros acc; simpl; [by rewrite app_nil_r|].
  rewrite IH, filter_cons. case_decide; [|done]. by rewrite fmap_cons, <- app_assoc.
Qed.

Lemma foldl_union_singleton {A} `{Countable K} (f : A → K) l : ∀ (start : gset K) k,
  k ∈ foldl (λ acc r, acc ∪ {[ f r ]}) start l ↔ k ∈ start ∨ ∃ r, r ∈ l ∧ k = f r.
Proof.
  induction l as [|x l IH]; intros start k; simpl.
  - split; [by left|]. intros [?|(r & Hr & _)]; [done|by apply elem_of_nil in Hr].
  - rewrite IH, elem_of_union, elem_of_singleton. split.
    + intros [[Hk | ->]|(r & Hr & ->)]; [by left|right..].
      * exists x. split; [by apply elem_of_cons; left|done].
      * exists r. split; [by apply elem_of_cons; right|done].
    + intros [?|(r & Hr & ->)]; [by left; left|].
      apply elem_of_cons in Hr as [->|Hr]; [by left; right|]. right. by exists r.
Qed.

Lemma pareto_runner_set_spec male_pareto female_pareto (n : string) (a : Z) (s : sex_t) :
  (n, a, s) ∈ pareto_runner_set male_pareto female_pareto ↔
  ∃ r, r ∈ pareto_of_sex s male_pareto female_pareto ∧ name r = n ∧ age r = a.
Proof.
  unfold pareto_runner_set. rewrite !foldl_union_singleton. split.
  - intros [[Hk|(r & Hr & [= -> -> ->])]|(r & Hr & [= -> -> ->])].
    + by apply elem_of_empty in Hk.
    + by exists r.
    + by exists r.
  - intros (r & Hr & <- & <-). destruct s.
    + left. right. by exists r.
    + right. by exists r.
Qed.

Lemma age_group_winners_spec results runner_set w :
  w ∈ age_group_winners results runner_set ↔
  ∃ r, r ∈ results ∧ div_place r = "1" ∧ division r ≠ "" ∧
    w = AgeGroupWinner (name r) (age r) (sex r) (division r) (time_display r)
          (Some (bool_decide ((name r, age r, sex r) ∈ runner_set))).
Proof.
  unfold age_group_winners. rewrite foldl_snoc_filter. simpl.
  rewrite list_elem_of_fmap. split.
  - intros (u & -> & Hu). rewrite sort_by_perm in Hu.
    apply list_elem_of_fmap in Hu as (r & -> & Hr).
    apply list_elem_of_filter in Hr as [[Hplace Hdiv] Hr]. by exists r.
  - intros (r & Hr & Hplace & Hdiv & ->). exists (age_group_winner_of r).
    split; [done|]. rewrite sort_by_perm. apply list_elem_of_fmap_2.
    by apply list_elem_of_filter.
Qed.

Lemma pareto_winners_spec winner_set male_pareto female_pareto p :
  p ∈ pareto_winners winner_set male_pareto female_pareto ↔
  ∃ s r, r ∈ pareto_of_sex s male_pareto female_pareto ∧
    p = pareto_winner_of winner_set s r.
Proof.
  unfold pareto_winners. rewrite !foldl_snoc_fmap, sort_by_perm. simpl.
  rewrite elem_of_app, !list_elem_of_fmap. split.
  - intros [(r & -> & Hr)|(r & -> & Hr)]; [by exists M, r|by exists F, r].
  - intros ([] & r & Hr & ->); [left|right]; by exists r.
Qed.

(** X19: every division winner of the results (division place ['1'], a
    division name) has a row in the list of age-group winners, and a row is
    flagged as on the front exactly when a record of the front of its sex
    has its name and age. *)
Theorem age_group_winner_flag (results : list runner) :
  ∃ male_pareto female_pareto,
    compute_pareto_front (results_of_sex M results) = Ret male_pareto ∧
    compute_pareto_front (results_of_sex F results) = Ret female_pareto ∧
    let winners := age_group_winners results (pareto_runner_set male_pareto female_pareto) in
    (∀ r, r ∈ results → div_place r = "1" → division r ≠ "" →
       ∃ w, w ∈ winners ∧ agw_name w = name r ∧ agw_age w = age r ∧ agw_sex w = sex r ∧
            agw_division w = division r ∧ agw_time_display w = time_display r) ∧
    ∀ w, w ∈ winners →
      ∃ flag, agw_is_pareto w = Some flag ∧
        (flag = true ↔
         ∃ r, r ∈ pareto_of_sex (agw_sex w) male_pareto female_pareto ∧
              name r = agw_name w ∧ age r = agw_age w).
Proof.
  destruct (front_age_le (results_of_sex M results)) as (mp & Hmp & _).
  destruct (front_age_le (results_of_sex F results)) as (fp & Hfp & _).
  exists mp, fp. split; [done|]. split; [done|]. simpl. split.
  - intros r Hr Hplace Hdiv. eexists. split.
    + apply age_group_winners_spec. by exists r.
    + done.
  - intros w (r & Hr & Hplace & Hdiv & ->)%age_group_winners_spec. simpl.
    eexists. split; [done|]. by rewrite bool_decide_eq_true, pareto_runner_set_spec.
Qed.

(** X20: the two winner lists agree: a name, age and sex belong to an
    age-group winner flagged as on the front exactly when they belong to a
    front winner flagged as an age-group winner. *)
Theorem winner_flags_agree (results : list runner) :
  ∃ male_pareto female_pareto,
    compute_pareto_front (results_of_sex M results) = Ret male_pareto ∧
    compute_pareto_front (results_of_sex F results) = Ret female_pareto ∧
    ∀ n a s,
      (∃ w, w ∈ age_group_winners results (pareto_runner_set male_pareto female_pareto) ∧
            agw_name w = n ∧ agw_age w = a ∧ agw_sex w = s ∧
            agw_is_pareto w = Some true) ↔
      (∃ p, p ∈ pareto_winners (age_group_winner_set results) male_pareto female_pareto ∧
            pw_name p = n ∧ pw_age p = a ∧ pw_sex p = s ∧
            pw_is_age_group_winner p = true).
Proof.
  destruct (front_age_le (results_of_sex M results)) as (mp & Hmp & _).
  destruct (front_age_le (results_of_sex F results)) as (fp & Hfp & _).
  exists mp, fp. split; [done|]. split; [done|]. intros n a s. split.
  - intros (w & (r & Hr & Hplace & Hdiv & ->)%age_group_winners_spec & Hn & Ha & Hs & Hflag).
    simpl in *. injection Hflag as Hflag.
    apply bool_decide_eq_true, pareto_runner_set_spec in Hflag as (r' & Hr' & Hn' & Ha').
    exists (pareto_winner_of (age_group_winner_set results) s r'). split.
    + apply pareto_winners_spec. exists s, r'. by rewrite <- Hs.
    + simpl. split; [congruence|]. split; [congruence|]. split; [done|].
      apply bool_decide_eq_true. unfold age_group_winner_set.
      apply age_group_winner_set_spec. right. exists r.
      split; [done|]. split; [|done]. congruence.
  - intros (p & (s' & r' & Hr' & ->)%pareto_winners_spec & Hn & Ha & Hs & Hflag).
    simpl in *. subst s'.
    apply bool_decide_eq_true in Hflag. unfold age_group_winner_set in Hflag.
    apply age_group_winner_set_spec in Hflag
      as [Hk|(r & Hr & [= Hn' Ha' Hs'] & Hplace & Hdiv)]; [by apply elem_of_empty in Hk|].
    eexists. split; [apply age_group_winners_spec; by exists r|]. simpl.
    split; [congruence|]. split; [congruence|]. split; [done|]. f_equal.
    apply bool_decide_eq_true, pareto_runner_set_spec. exists r'.
    rewrite Hs'. split; [done|]. split; congruence.
Qed.

(** ** Current-year records of the all-time front *)

Lemma younger_front_member p rs x :
  x ∈ rs → age x < p →
  (∀ z, z ∈ rs → age z ≤ age x → (time_seconds z <= time_seconds x)%Q → z = x) →
  x ∈ younger_front p rs.
Proof.
  intros Hx Hp Hbest. unfold younger_front.
  assert (x ∈ filter (λ r, age r < p) (sorted_by_age rs)) as Hin.
  { apply list_elem_of_filter. split; [done|]. by rewrite sorted_by_age_elem_of. }
  assert (StronglySorted age_le (filter (λ r, age r < p) (sorted_by_age rs))) as Hs.
  { eapply StronglySorted_sublist; [apply sublist_filter; apply _|apply sorted_by_age_sorted]. }
  apply list_elem_of_split_l in Hin as (l1 & l2 & Heq & Hnot).
  rewrite Heq in Hs |- *. apply scan_keeps; [|done].
  apply Forall_forall. intros z Hz.
  destruct (decide (time_seconds x < time_seconds z)%Q) as [|Hn]; [done|].
  assert (z ∈ rs) as Hzrs.
  { rewrite <- sorted_by_age_elem_of.
    eapply (list_elem_of_filter (λ r, age r < p)). rewrite Heq. apply elem_of_app. by left. }
  assert (age z ≤ age x) as Hage.
  { apply (StronglySorted_app_1_elem_of age_le l1 (x :: l2)); [done|done|].
    by apply elem_of_cons; left. }
  rewrite (Hbest z) in Hz; [done|done|done|lra].
Qed.

Lemma older_front_member p rs x :
  x ∈ rs → p ≤ age x →
  (∀ z, z ∈ rs → age x ≤ age z → (time_seconds z <= time_seconds x)%Q → z = x) →
  x ∈ older_front p rs.
Proof.
  intros Hx Hp Hbest. unfold older_front. rewrite elem_of_reverse.
  assert (x ∈ reverse (filter (λ r, age r >= p) (sorted_by_age rs))) as Hin.
  { rewrite elem_of_reverse. apply list_elem_of_filter.
    split; [lia|]. by rewrite sorted_by_age_elem_of. }
  assert (StronglySorted (flip age_le)
            (reverse (filter (λ r, age r >= p) (sorted_by_age rs)))) as Hs.
  { apply StronglySorted_reverse.
    eapply StronglySorted_sublist; [apply sublist_filter; apply _|apply sorted_by_age_sorted]. }
  apply list_elem_of_split_l in Hin as (l1 & l2 & Heq & Hnot).
  rewrite Heq in Hs |- *. apply scan_keeps; [|done].
  apply Forall_forall. intros z Hz.
  destruct (decide (time_seconds x < time_seconds z)%Q) as [|Hn]; [done|].
  assert (z ∈ rs) as Hzrs.
  { rewrite <- sorted_by_age_elem_of.
    eapply (list_elem_of_filter (λ r, age r >= p)).
    rewrite <- elem_of_reverse, Heq. apply elem_of_app. by left. }
  assert (age x ≤ age z) as Hage.
  { apply (StronglySorted_app_1_elem_of (flip age_le) l1 (x :: l2)); [done|done|].
    by apply elem_of_cons; left. }
  rewrite (Hbest z) in Hz; [done|done|done|lra].
Qed.

(** The age reducer keeps, for every pool record, a record of the same age
    that is at least as fast. *)
Lemma get_fastest_at_each_age_cover pool o :
  o ∈ pool →
  ∃ v, v ∈ get_fastest_at_each_age pool ∧ age v = age o ∧
       (time_seconds v <= time_seconds o)%Q.
Proof.
  intros Ho. destruct (get_fastest_at_each_age_inv pool) as (d & -> & [Hnd Hent Hcov]).
  specialize (Hcov o Ho).
  apply list_elem_of_fmap in Hcov as ([k v] & Hk & Hin). simpl in Hk. subst k.
  destruct (Hent _ _ Hin) as [Hage Hv]. exists v.
  split; [by apply (list_elem_of_fmap_2 snd _ (age o, v))|]. split; [done|].
  apply (first_min_time_le _ _ o Hv). by apply list_elem_of_filter.
Qed.

Lemma get_fastest_at_each_age_ages pool : NoDup (age <$> get_fastest_at_each_age pool).
Proof.
  destruct (get_fastest_at_each_age_inv pool) as (d & -> & [Hnd Hent _]).
  rewrite age_groups_values_ages; [done|]. intros k v Hin. by destruct (Hent k v Hin).
Qed.

Lemma get_fastest_at_each_age_elem_of pool v :
  v ∈ get_fastest_at_each_age pool → v ∈ pool.
Proof.
  destruct (get_fastest_at_each_age_inv pool) as (d & -> & [_ Hent _]).
  intros ([k v'] & -> & Hin)%list_elem_of_fmap. destruct (Hent k v' Hin) as [_ Hv].
  apply first_min_elem_of in Hv. by apply list_elem_of_filter in Hv as [_ ?].
Qed.

(** A member of the all-time front is at least as fast as every record of
    the whole pool on its side of the all-time peak. *)
Lemma all_time_front_side all_results d0 ds peak r :
  get_fastest_at_each_age all_results = d0 :: ds →
  py_min Qlt time_seconds (d0 :: ds) = Ret peak →
  first_min Qlt time_seconds (d0 :: ds) peak →
  r ∈ younger_front (age peak) (d0 :: ds) ++ older_front (age peak) (d0 :: ds) →
  ∀ o, o ∈ all_results →
    (age r ≤ age peak → age o ≤ age r → (time_seconds r <= time_seconds o)%Q) ∧
    (age peak ≤ age r → age r ≤ age o → (time_seconds r <= time_seconds o)%Q).
Proof.
  intros Heq Hmin Hfirst Hr o Ho.
  pose proof (get_fastest_at_each_age_ages all_results) as Hnd. rewrite Heq in Hnd.
  destruct (get_fastest_at_each_age_cover all_results o Ho) as (v & Hv & Hage & Hvt).
  rewrite Heq in Hv.
  assert (age r = age peak → (time_seconds r <= time_seconds o)%Q) as Hpeak.
  { intros Hrp. assert (r = peak) as ->.
    { apply (NoDup_age_inj (d0 :: ds)); [done| |by eapply first_min_elem_of|done].
      by apply (front_in_pool d0 ds peak). }
    pose proof (first_min_time_le _ _ v Hfirst Hv). lra. }
  split.
  - intros Hle Hor. destruct (decide (age r = age peak)) as [|Hne]; [auto|].
    pose proof (front_younger d0 ds peak r Hr ltac:(lia)) as HrY.
    destruct (younger_front_cover (age peak) (d0 :: ds) v Hv ltac:(lia))
      as (y & Hy & Hya & Hyt).
    pose proof (younger_front_mono d0 ds peak Hnd y r Hy HrY ltac:(lia)). lra.
  - intros Hle Hor. destruct (decide (age r = age peak)) as [|Hne]; [auto|].
    pose proof (front_older d0 ds peak r Hr Hle) as HrO.
    destruct (older_front_cover (age peak) (d0 :: ds) v Hv ltac:(lia))
      as (y & Hy & Hya & Hyt).
    pose proof (older_front_mono d0 ds peak Hnd r y HrO Hy ltac:(lia)). lra.
Qed.

(** With distinct times, a record of a part of the pool that is on the
    all-time front is on the front of that part. *)
Lemma all_time_member_on_part_front all_results part fr r :
  (∀ x, x ∈ part → x ∈ all_results) → distinct_times all_results →
  compute_pareto_front (get_fastest_at_each_age all_results) = Ret fr →
  r ∈ fr → r ∈ part →
  ∃ part_fr, compute_pareto_front part = Ret part_fr ∧ r ∈ part_fr.
Proof.
  intros Hsub Htimes Hfr Hr Hpart.
  destruct (get_fastest_at_each_age all_results) as [|d0 ds] eqn:Heq.
  { injection Hfr as <-. by apply elem_of_nil in Hr. }
  destruct (compute_pareto_front_cons d0 ds) as (peak & Hmin & Hfirst & Hfr').
  rewrite Hfr' in Hfr. injection Hfr as <-.
  pose proof (all_time_front_side all_results d0 ds peak r Heq Hmin Hfirst Hr) as Hside.
  destruct part as [|y0 ys]; [by apply elem_of_nil in Hpart|].
  destruct (compute_pareto_front_cons y0 ys) as (ypeak & Hymin & Hyfirst & Hyfr).
  eexists. split; [exact Hyfr|]. set (part := y0 :: ys) in *.
  pose proof (first_min_elem_of _ _ _ _ Hyfirst) as Hypeak.
  assert (∀ z, z ∈ part → (time_seconds r <= time_seconds z)%Q →
               (time_seconds z <= time_seconds r)%Q → z = r) as Hsame.
  { intros z Hz H1 H2. apply Htimes; [auto..|]. by apply Qle_antisym. }
  assert ((time_seconds r <= time_seconds ypeak)%Q →
          ∀ z, z ∈ part → (time_seconds r <= time_seconds z)%Q) as Hpeak.
  { intros Hle z Hz. pose proof (first_min_time_le _ _ z Hyfirst Hz). lra. }
  pose proof (first_min_time_le _ _ r Hyfirst Hpart) as Hyr.
  apply elem_of_app. destruct (decide (age r < age ypeak)) as [Hlt|Hge].
  - left. apply younger_front_member; [done|done|]. intros z Hz Hage Ht.
    apply Hsame; [done| |done].
    destruct (decide (age r ≤ age peak)) as [Hrp|Hrp].
    + destruct (Hside z (Hsub z Hz)) as [Hyounger _]. by apply Hyounger.
    + apply Hpeak; [|done].
      destruct (Hside ypeak (Hsub _ Hypeak)) as [_ Holder]. apply Holder; lia.
  - right. apply older_front_member; [done|lia|]. intros z Hz Hage Ht.
    apply Hsame; [done| |done].
    destruct (decide (age peak ≤ age r)) as [Hrp|Hrp].
    + destruct (Hside z (Hsub z Hz)) as [_ Holder]. by apply Holder.
    + apply Hpeak; [|done].
      destruct (Hside ypeak (Hsub _ Hypeak)) as [Hyounger _]. apply Hyounger; lia.
Qed.

Lemma all_time_pareto_eq all_results :
  all_time_pareto all_results = compute_pareto_front (get_fastest_at_each_age all_results).
Proof. by destruct all_results. Qed.

Lemma foldl_extend_elem_of {A B} (f : A → list B) l : ∀ start x,
  x ∈ foldl (λ acc y, acc ++ f y) start l ↔ x ∈ start ∨ ∃ y, y ∈ l ∧ x ∈ f y.
Proof.
  induction l as [|y l IH]; intros start x; simpl.
  - split; [by left|]. intros [?|(y & Hy & _)]; [done|by apply elem_of_nil in Hy].
  - rewrite IH, elem_of_app. split.
    + intros [[?|?]|(y' & Hy' & ?)]; [by left|right..].
      * exists y. split; [by apply elem_of_cons; left|done].
      * exists y'. split; [by apply elem_of_cons; right|done].
    + intros [?|(y' & Hy' & Hx)]; [by left; left|].
      apply elem_of_cons in Hy' as [->|Hy']; [by left; right|]. right. by exists y'.
Qed.

Lemma all_time_results_elem_of load_raw_results s current_year r :
  r ∈ all_time_results load_raw_results s current_year ↔
  ∃ y, y ∈ all_time_years current_year ∧ r ∈ results_of_sex s (load_raw_results y).
Proof.
  unfold all_time_results. rewrite foldl_extend_elem_of. split.
  - intros [Hr|?]; [by apply elem_of_nil in Hr|done].
  - by right.
Qed.

(** X21: when every file holds rows of its own year and no two all-time
    rows of a sex have the same time, each entry of the all-time front that
    is flagged as a current-year record is a record of the current year's
    own front. *)
Theorem current_year_record_on_year_front (load_raw_results : string → list runner)
    (s : sex_t) (current_year : string) :
  (∀ y r, r ∈ load_raw_results y → year r = y) →
  distinct_times (all_time_results load_raw_results s current_year) →
  ∃ all_time_front year_front,
    all_time_pareto (all_time_results load_raw_results s current_year) = Ret all_time_front ∧
    compute_pareto_front (results_of_sex s (load_raw_results current_year)) = Ret year_front ∧
    ∀ e, e ∈ all_time_pareto_data current_year all_time_front →
      ate_is_current_year e = true →
      ∃ r, r ∈ year_front ∧ ate_name e = name r ∧ ate_age e = age r ∧
           ate_time_seconds e = time_seconds r ∧ ate_time_display e = time_display r ∧
           ate_year e = current_year.
Proof.
  intros Hyear Htimes.
  set (all_results := all_time_results load_raw_results s current_year) in *.
  set (part := results_of_sex s (load_raw_results current_year)).
  destruct (front_age_le (get_fastest_at_each_age all_results)) as (fr & Hfr & _).
  destruct (front_age_le part) as (yfr & Hyfr & _).
  exists fr, yfr. rewrite all_time_pareto_eq. split; [done|]. split; [done|].
  intros e (r & -> & Hr)%list_elem_of_fmap Hflag. simpl in *.
  apply bool_decide_eq_true in Hflag.
  assert (r ∈ all_results) as Hall.
  { apply get_fastest_at_each_age_elem_of. by apply (front_elem_of_pool _ fr). }
  apply all_time_results_elem_of in Hall as (y & Hy & Hin).
  assert (y = current_year) as ->.
  { apply list_elem_of_filter in Hin as [_ Hin]. by rewrite <- (Hyear y r Hin). }
  destruct (all_time_member_on_part_front all_results part fr r) as (fr' & Hfr' & Hr');
    [|done|done|done|done|].
  { intros x Hx. apply all_time_results_elem_of. by exists current_year. }
  fold part in Hin. rewrite Hyfr in Hfr'. injection Hfr' as <-. by exists r.
Qed.

Lemma current_year_record_on_year_front_witness :
  ∃ all_time_front year_front,
    all_time_pareto (all_time_results sample_files M "2025") = Ret all_time_front ∧
    compute_pareto_front (results_of_sex M (sample_files "2025")) = Ret year_front ∧
    ∀ e, e ∈ all_time_pareto_data "2025" all_time_front →
      ate_is_current_year e = true →
      ∃ r, r ∈ year_front ∧ ate_name e = name r ∧ ate_age e = age r ∧
           ate_time_seconds e = time_seconds r ∧ ate_time_display e = time_display r ∧
           ate_year e = "2025".
Proof.
  apply (current_year_record_on_year_front sample_files M "2025").
  - intros y r Hr. unfold sample_files in Hr. repeat case_decide; subst.
    + apply elem_of_app in Hr as [Hr|Hr]; members Hr; reflexivity.
    + members Hr; reflexivity.
    + by apply elem_of_nil in Hr.
  - intros x y Hx Hy Ht.
    let l := eval vm_compute in (all_time_results sample_files M "2025") in
      change (x ∈ l) in Hx; change (y ∈ l) in Hy.
    members Hx; members Hy; first [reflexivity | vm_compute in Ht; discriminate].
Defined.
